(** * Parkkihubi: permits, the permit validity cache and permit series

    A shallow embedding of [parkings/models/permit.py] and of the
    endpoint exercised by
    [parkings/tests/api/enforcement/test_activate_permit_series.py].

    Conventions.
    - A timestamp is an integer of type [Z]: microseconds since the epoch,
      so that the order of [Z] is the order of aware datetimes.
    - A table is the list of its rows; a primary key is drawn from a
      sequence kept next to the table.
    - Code that runs against the database lives in the monad [M]: a state
      monad over [DB] with exceptions, in which the state survives a raise
      so that [atomic] has something to roll back. *)

From Stdlib Require Import ZArith Lia Ascii.
From stdpp Require Import base decidable option list sorting strings.

Local Open Scope Z_scope.

(** ** Exceptions *)

Inductive Exception : Type :=
| ValidationError (field : string)
| IntegrityError
| ProtectedError
| Http404.

Inductive Result (A : Type) : Type :=
| Ok (a : A)
| Raise (e : Exception).
Arguments Ok {A} a.
Arguments Raise {A} e.

(** ** Registration numbers *)

Module Parking.

Definition is_whitespace (c : ascii) : bool :=
  let n := N_of_ascii c in
  ((9 <=? n) && (n <=? 13) || (n =? 32))%N.

Definition is_punctuation (c : ascii) : bool :=
  let n := N_of_ascii c in
  ((33 <=? n) && (n <=? 47) || (58 <=? n) && (n <=? 64)
   || (91 <=? n) && (n <=? 96) || (123 <=? n) && (n <=? 126))%N.

Definition is_separator (c : ascii) : bool :=
  is_whitespace c || is_punctuation c.

Definition upper (c : ascii) : ascii :=
  let n := N_of_ascii c in
  if ((97 <=? n) && (n <=? 122))%N then ascii_of_N (n - 32) else c.

(** Modelled from the spec: [Parking.normalize_reg_num] is defined in
    [parkings/models/parking.py], which is not among the sources.  The
    canonical form has whitespace, case and formatting normalized, so that
    "ABC 123", "abc-123" and "ABC123" name one vehicle, and "ABC-123" is
    stored as "ABC123": letters are upper-cased, white space and
    punctuation are dropped. *)
Fixpoint normalize_reg_num (registration_number : string) : string :=
  match registration_number with
  | EmptyString => EmptyString
  | String c rest =>
      if is_separator c then normalize_reg_num rest
      else String (upper c) (normalize_reg_num rest)
  end.

End Parking.

(** ** Data model *)

(** An item of [Permit.subjects], as the schema of the field has it. *)
Module Subject.
Record t : Type := {
  start_time : Z;
  end_time : Z;
  registration_number : string;
}.
#[global] Instance eq_dec : EqDecision t.
Proof. solve_decision. Defined.
End Subject.

(** An item of [Permit.areas]. *)
Module Area.
Record t : Type := {
  start_time : Z;
  end_time : Z;
  area : string;
}.
#[global] Instance eq_dec : EqDecision t.
Proof. solve_decision. Defined.
End Area.

Module PermitSeries.
Record t : Type := {
  id : Z;
  created_at : Z;
  modified_at : Z;
  active : bool;
}.
#[global] Instance eq_dec : EqDecision t.
Proof. solve_decision. Defined.
End PermitSeries.

(** A [Permit] instance.  [id] is [None] until the row is inserted; an
    instance with [id = Some pk] is one that was loaded from, or saved to,
    the database.  The two JSON fields hold decoded items. *)
Module Permit.
Record t : Type := {
  id : option Z;
  series : Z;
  external_id : option string;
  subjects : list Subject.t;
  areas : list Area.t;
}.
#[global] Instance eq_dec : EqDecision t.
Proof. solve_decision. Defined.
End Permit.

Module PermitCacheItem.
Record t : Type := {
  id : option Z;
  permit : option Z;
  registration_number : string;
  area_identifier : string;
  start_time : Z;
  end_time : Z;
}.
#[global] Instance eq_dec : EqDecision t.
Proof. solve_decision. Defined.
End PermitCacheItem.

(** ** The generator of cache rows *)

Definition _make_cache_items (self : Permit.t) : list PermitCacheItem.t :=
  area ← Permit.areas self;
  subject ← Permit.subjects self;
  let max_start_time :=
    Z.max (Subject.start_time subject) (Area.start_time area) in
  let min_end_time :=
    Z.min (Subject.end_time subject) (Area.end_time area) in
  if decide (max_start_time >= min_end_time) then []
  else [ {| PermitCacheItem.id := None;
            PermitCacheItem.permit := Permit.id self;
            PermitCacheItem.registration_number :=
              Parking.normalize_reg_num (Subject.registration_number subject);
            PermitCacheItem.area_identifier := Area.area area;
            PermitCacheItem.start_time := max_start_time;
            PermitCacheItem.end_time := min_end_time |} ].

(** ** The database and the monad of database code *)

Record DB : Type := {
  series_table : list PermitSeries.t;
  series_seq : Z;
  permit_table : list Permit.t;
  permit_seq : Z;
  cache_table : list PermitCacheItem.t;
  cache_seq : Z;
}.

Definition empty_db : DB :=
  {| series_table := []; series_seq := 1;
     permit_table := []; permit_seq := 1;
     cache_table := []; cache_seq := 1 |}.

Definition set_series_table (l : list PermitSeries.t) (db : DB) : DB :=
  {| series_table := l; series_seq := series_seq db;
     permit_table := permit_table db; permit_seq := permit_seq db;
     cache_table := cache_table db; cache_seq := cache_seq db |}.

Definition set_permit_table (l : list Permit.t) (db : DB) : DB :=
  {| series_table := series_table db; series_seq := series_seq db;
     permit_table := l; permit_seq := permit_seq db;
     cache_table := cache_table db; cache_seq := cache_seq db |}.

Definition set_cache_table (l : list PermitCacheItem.t) (db : DB) : DB :=
  {| series_table := series_table db; series_seq := series_seq db;
     permit_table := permit_table db; permit_seq := permit_seq db;
     cache_table := l; cache_seq := cache_seq db |}.

Definition M (A : Type) : Type := DB → Result A * DB.

#[global] Instance M_ret : MRet M := λ A a db, (Ok a, db).

#[global] Instance M_bind : MBind M := λ A B f m db,
  match m db with
  | (Ok a, db') => f a db'
  | (Raise e, db') => (Raise e, db')
  end.

Definition raise {A : Type} (e : Exception) : M A := λ db, (Raise e, db).

Definition get : M DB := λ db, (Ok db, db).

Definition modify (f : DB → DB) : M unit := λ db, (Ok tt, f db).

(** What a rollback restores: the rows of the snapshot.  Sequence values
    handed out inside the block are not given back. *)
Definition rollback (snapshot current : DB) : DB :=
  {| series_table := series_table snapshot; series_seq := series_seq current;
     permit_table := permit_table snapshot; permit_seq := permit_seq current;
     cache_table := cache_table snapshot; cache_seq := cache_seq current |}.

(** [with transaction.atomic(...)], entered outside of any other
    transaction: commit when the block returns, roll back when it raises. *)
Definition atomic {A : Type} (block : M A) : M A := λ db,
  match block db with
  | (Ok a, db') => (Ok a, db')
  | (Raise e, db') => (Raise e, rollback db db')
  end.

Definition nextval_series : M Z := λ db,
  (Ok (series_seq db),
   {| series_table := series_table db; series_seq := series_seq db + 1;
      permit_table := permit_table db; permit_seq := permit_seq db;
      cache_table := cache_table db; cache_seq := cache_seq db |}).

Definition nextval_permit : M Z := λ db,
  (Ok (permit_seq db),
   {| series_table := series_table db; series_seq := series_seq db;
      permit_table := permit_table db; permit_seq := permit_seq db + 1;
      cache_table := cache_table db; cache_seq := cache_seq db |}).

Definition nextval_cache : M Z := λ db,
  (Ok (cache_seq db),
   {| series_table := series_table db; series_seq := series_seq db;
      permit_table := permit_table db; permit_seq := permit_seq db;
      cache_table := cache_table db; cache_seq := cache_seq db + 1 |}).

(** ** Constraints of the permit table *)

(** [unique_together = [('series', 'external_id')]]: a row [q] stands in
    the way of [row].  A null [external_id] never conflicts. *)
Definition unique_together_conflict (row q : Permit.t) : Prop :=
  Permit.series q = Permit.series row
  ∧ is_Some (Permit.external_id row)
  ∧ Permit.external_id q = Permit.external_id row.

#[global] Instance unique_together_conflict_dec row q :
  Decision (unique_together_conflict row q).
Proof. unfold unique_together_conflict. apply _. Defined.

Definition series_exists (pk : Z) (db : DB) : Prop :=
  pk ∈ PermitSeries.id <$> series_table db.

#[global] Instance series_exists_dec pk db : Decision (series_exists pk db).
Proof. unfold series_exists. apply _. Defined.

Definition other_rows (row : Permit.t) (table : list Permit.t) : list Permit.t :=
  filter (λ q, Permit.id q ≠ Permit.id row) table.

(** INSERT of one permit row: primary key, unique constraint, foreign key. *)
Definition insert_permit (row : Permit.t) : M unit :=
  db ← get;
  if decide (Permit.id row ∈ Permit.id <$> permit_table db) then
    raise IntegrityError
  else if decide (Exists (unique_together_conflict row) (permit_table db)) then
    raise IntegrityError
  else if decide (series_exists (Permit.series row) db) then
    modify (set_permit_table (permit_table db ++ [row]))
  else raise IntegrityError.

(** UPDATE of the permit row with the primary key of [row]. *)
Definition update_permit (row : Permit.t) : M unit :=
  db ← get;
  if decide (Exists (unique_together_conflict row)
               (other_rows row (permit_table db))) then
    raise IntegrityError
  else if decide (series_exists (Permit.series row) db) then
    modify (set_permit_table
              ((λ q, if decide (Permit.id q = Permit.id row) then row else q)
                 <$> permit_table db))
  else raise IntegrityError.

Definition with_id (self : Permit.t) (pk : Z) : Permit.t :=
  {| Permit.id := Some pk; Permit.series := Permit.series self;
     Permit.external_id := Permit.external_id self;
     Permit.subjects := Permit.subjects self;
     Permit.areas := Permit.areas self |}.

(** INSERT of an instance, under its own primary key when it has one. *)
Definition Model_insert (self : Permit.t) : M Permit.t :=
  match Permit.id self with
  | None =>
      pk ← nextval_permit;
      insert_permit (with_id self pk);;
      mret (with_id self pk)
  | Some pk => insert_permit self;; mret self
  end.

(** [models.Model.save]: an instance without primary key is inserted under
    the next value of the sequence; one with a primary key is updated, or
    inserted under that key when no row has it.  Returns the instance as it
    is after the call. *)
Definition Model_save (self : Permit.t) : M Permit.t :=
  match Permit.id self with
  | None => Model_insert self
  | Some pk =>
      db ← get;
      (if decide (Some pk ∈ Permit.id <$> permit_table db)
       then update_permit self else insert_permit self);;
      mret self
  end.

(** [QuerySet.bulk_create] of the base class: the rows are inserted one
    after the other, no validation takes place, and the instances come
    back with their primary keys. *)
Fixpoint QuerySet_bulk_create (permits : list Permit.t) : M (list Permit.t) :=
  match permits with
  | [] => mret []
  | permit :: rest =>
      created ← Model_insert permit;
      created_rest ← QuerySet_bulk_create rest;
      mret (created :: created_rest)
  end.

(** ** Validation *)

(** [parkings/validators.py] and [parkings/fields.py] are not among the
    sources; the three validators are modelled from the spec, which has the
    two lists validated against a schema of required keys and types.  In
    this embedding an item is a record, so the presence of the keys, the
    type of each member and the parsing of the timestamps are carried by
    the type; what is left of the schema is the length limit of the text
    members. *)

(** Modelled from the spec: [TextField(max_length=n)] accepts a text of at
    most [n] characters. *)
Definition TextField (max_length : nat) (value : string) : Prop :=
  (String.length value ≤ max_length)%nat.

(** Modelled from the spec: [TimestampField()] accepts a timestamp; an
    entry of the embedding holds parsed timestamps only. *)
Definition TimestampField (value : Z) : Prop := True.

(** Modelled from the spec: [DictListValidator(schema)] accepts a list
    each of whose items satisfies the schema. *)
Definition DictListValidator {A : Type} (item_schema : A → Prop)
    (value : list A) : Prop :=
  Forall item_schema value.

Definition subjects_schema (item : Subject.t) : Prop :=
  TimestampField (Subject.start_time item)
  ∧ TimestampField (Subject.end_time item)
  ∧ TextField 20 (Subject.registration_number item).

Definition areas_schema (item : Area.t) : Prop :=
  TimestampField (Area.start_time item)
  ∧ TimestampField (Area.end_time item)
  ∧ TextField 10 (Area.area item).

#[global] Instance subjects_schema_dec item : Decision (subjects_schema item).
Proof. unfold subjects_schema, TimestampField, TextField. apply _. Defined.

#[global] Instance areas_schema_dec item : Decision (areas_schema item).
Proof. unfold areas_schema, TimestampField, TextField. apply _. Defined.

(** [Field.clean] on a list-valued field: an empty value is accepted when
    the field is declared [blank=True] and refused otherwise, and the
    validators only run on a value that is not empty. *)
Definition clean_list_field {A : Type} (blank : bool)
    (item_schema : A → Prop) (value : list A) : Prop :=
  match value with
  | [] => blank = true
  | _ :: _ => DictListValidator item_schema value
  end.

#[global] Instance clean_list_field_dec {A : Type} blank
  (item_schema : A → Prop) `{!∀ x, Decision (item_schema x)} value :
  Decision (clean_list_field blank item_schema value).
Proof. unfold clean_list_field, DictListValidator. destruct value; apply _. Defined.

(** [external_id = CharField(max_length=50, null=True, blank=True)]. *)
Definition clean_external_id (value : option string) : Prop :=
  match value with
  | None => True
  | Some s => (String.length s ≤ 50)%nat
  end.

#[global] Instance clean_external_id_dec value : Decision (clean_external_id value).
Proof. unfold clean_external_id. destruct value; apply _. Defined.

(** [Model.clean_fields]: the names of the fields whose value is refused. *)
Definition clean_fields (self : Permit.t) (db : DB) : list string :=
  (if decide (series_exists (Permit.series self) db) then [] else ["series"])
  ++ (if decide (clean_external_id (Permit.external_id self))
      then [] else ["external_id"])
  ++ (if decide (clean_list_field true subjects_schema (Permit.subjects self))
      then [] else ["subjects"])
  ++ (if decide (clean_list_field true areas_schema (Permit.areas self))
      then [] else ["areas"]).

(** [Model.validate_unique] for [unique_together]: skipped when one of the
    two fields already failed; the instance's own row does not count. *)
Definition validate_unique (self : Permit.t) (db : DB)
    (exclude : list string) : list string :=
  if decide ("series" ∈ exclude ∨ "external_id" ∈ exclude) then []
  else if decide (Exists (unique_together_conflict self)
                    (match Permit.id self with
                     | None => permit_table db
                     | Some _ => other_rows self (permit_table db)
                     end))
  then ["__all__"] else [].

(** [Model.full_clean]: raises [ValidationError] with every failure, or
    returns; the database is only read. *)
Definition full_clean (self : Permit.t) : M unit :=
  db ← get;
  let errors := clean_fields self db in
  let errors := errors ++ validate_unique self db errors in
  if decide (errors = []) then mret tt
  else raise (ValidationError (String.concat "," errors)).

(** ** The cache table *)

(** [self.cache_items.all().delete()]. *)
Definition delete_cache_items (self : Permit.t) : M unit :=
  db ← get;
  modify (set_cache_table
            (filter (λ c, PermitCacheItem.permit c ≠ Permit.id self)
                    (cache_table db))).

Definition permit_exists (pk : option Z) (db : DB) : Prop :=
  is_Some pk ∧ pk ∈ Permit.id <$> permit_table db.

#[global] Instance permit_exists_dec pk db : Decision (permit_exists pk db).
Proof. unfold permit_exists. apply _. Defined.

Definition with_cache_id (row : PermitCacheItem.t) (pk : Z) : PermitCacheItem.t :=
  {| PermitCacheItem.id := Some pk;
     PermitCacheItem.permit := PermitCacheItem.permit row;
     PermitCacheItem.registration_number :=
       PermitCacheItem.registration_number row;
     PermitCacheItem.area_identifier := PermitCacheItem.area_identifier row;
     PermitCacheItem.start_time := PermitCacheItem.start_time row;
     PermitCacheItem.end_time := PermitCacheItem.end_time row |}.

(** INSERT of one cache row under the next value of the sequence: the
    owning permit must exist and the key must be free. *)
Definition insert_cache_item (row : PermitCacheItem.t) : M unit :=
  pk ← nextval_cache;
  db ← get;
  if decide (permit_exists (PermitCacheItem.permit row) db) then
    if decide (Some pk ∈ PermitCacheItem.id <$> cache_table db) then
      raise IntegrityError
    else modify (set_cache_table (cache_table db ++ [with_cache_id row pk]))
  else raise IntegrityError.

(** [PermitCacheItem.objects.bulk_create]. *)
Fixpoint cache_bulk_create (cache_items : list PermitCacheItem.t) : M unit :=
  match cache_items with
  | [] => mret tt
  | row :: rest => insert_cache_item row;; cache_bulk_create rest
  end.

(** ** [Permit.save] *)

(** The body of the [with transaction.atomic] block of [Permit.save]. *)
Definition save_block (self : Permit.t) : M Permit.t :=
  self ← Model_save self;
  delete_cache_items self;;
  let new_cache_items := _make_cache_items self in
  cache_bulk_create new_cache_items;;
  mret self.

Definition save (self : Permit.t) : M Permit.t :=
  full_clean self;;
  atomic (save_block self).

(** ** Query sets *)

Module PermitCacheItemQuerySet.

Definition by_time (self : list PermitCacheItem.t) (timestamp : Z)
    : list PermitCacheItem.t :=
  filter (λ c, PermitCacheItem.start_time c <= timestamp
               ∧ PermitCacheItem.end_time c >= timestamp) self.

Definition by_registration_number (self : list PermitCacheItem.t)
    (registration_number : string) : list PermitCacheItem.t :=
  filter (λ c, PermitCacheItem.registration_number c = registration_number) self.

Definition by_area (self : list PermitCacheItem.t) (area_identifier : string)
    : list PermitCacheItem.t :=
  filter (λ c, PermitCacheItem.area_identifier c = area_identifier) self.

End PermitCacheItemQuerySet.

Module PermitQuerySet.

(** [self.filter(cache_items__in=cache_items)]: the join of the permits of
    [self] with the cache table over the foreign key, one output row for
    each cache row whose primary key is among those of [cache_items]. *)
Definition filter_cache_items__in (db : DB) (self : list Permit.t)
    (cache_items : list PermitCacheItem.t) : list Permit.t :=
  p ← self;
  c ← cache_table db;
  if decide (is_Some (Permit.id p)
             ∧ PermitCacheItem.permit c = Permit.id p
             ∧ PermitCacheItem.id c ∈ PermitCacheItem.id <$> cache_items)
  then [p] else [].

(** [.distinct()]. *)
Definition distinct (rows : list Permit.t) : list Permit.t := remove_dups rows.

(** [self.filter(series__active=True)]. *)
Definition active (db : DB) (self : list Permit.t) : list Permit.t :=
  filter (λ p, Exists (λ s, PermitSeries.id s = Permit.series p
                            ∧ PermitSeries.active s = true)
                 (series_table db)) self.

Definition by_time (db : DB) (self : list Permit.t) (timestamp : Z)
    : list Permit.t :=
  let cache_items :=
    PermitCacheItemQuerySet.by_time (cache_table db) timestamp in
  distinct (filter_cache_items__in db self cache_items).

Definition by_subject (db : DB) (self : list Permit.t)
    (registration_number : string) : list Permit.t :=
  let cache_items :=
    PermitCacheItemQuerySet.by_registration_number (cache_table db)
      (Parking.normalize_reg_num registration_number) in
  distinct (filter_cache_items__in db self cache_items).

Definition by_area (db : DB) (self : list Permit.t) (area_identifier : string)
    : list Permit.t :=
  let cache_items :=
    PermitCacheItemQuerySet.by_area (cache_table db) area_identifier in
  distinct (filter_cache_items__in db self cache_items).

(** The loop of [bulk_create] over the created permits. *)
Fixpoint collect_cache_items (created_permits : list Permit.t)
    (cache_items : list PermitCacheItem.t) : M (list PermitCacheItem.t) :=
  match created_permits with
  | [] => mret cache_items
  | permit :: rest =>
      full_clean permit;;
      collect_cache_items rest (cache_items ++ _make_cache_items permit)
  end.

(** The body of the [with transaction.atomic] block of [bulk_create]. *)
Definition bulk_create_block (permits : list Permit.t) : M (list Permit.t) :=
  created_permits ← QuerySet_bulk_create permits;
  cache_items ← collect_cache_items created_permits [];
  cache_bulk_create cache_items;;
  mret created_permits.

Definition bulk_create (permits : list Permit.t) : M (list Permit.t) :=
  atomic (bulk_create_block permits).

End PermitQuerySet.

(** ** Permit series *)

Module PermitSeriesQuerySet.

Definition active (self : list PermitSeries.t) : list PermitSeries.t :=
  filter (λ s, PermitSeries.active s = true) self.

(** The later modified of two rows, the first one on a tie. *)
Definition later (a b : PermitSeries.t) : PermitSeries.t :=
  if decide (PermitSeries.modified_at a < PermitSeries.modified_at b)
  then b else a.

(** [self.active().order_by('-modified_at').first()]. *)
Definition latest_active (self : list PermitSeries.t) : option PermitSeries.t :=
  match active self with
  | [] => None
  | s :: rest => Some (foldl later s rest)
  end.

(** [now] is [timezone.now()] and [prunable_after] is
    [settings.PARKKIHUBI_PERMITS_PRUNABLE_AFTER]. *)
Definition prunable (now prunable_after : Z) (self : list PermitSeries.t)
    : list PermitSeries.t :=
  let limit := now - prunable_after in
  filter (λ s, PermitSeries.created_at s < limit
               ∧ PermitSeries.active s = false) self.

End PermitSeriesQuerySet.

(** [PermitSeries.objects.create(active=...)] at time [now]. *)
Definition PermitSeries_create (active : bool) (now : Z) : M PermitSeries.t :=
  pk ← nextval_series;
  db ← get;
  let obj := {| PermitSeries.id := pk; PermitSeries.created_at := now;
                PermitSeries.modified_at := now;
                PermitSeries.active := active |} in
  if decide (pk ∈ PermitSeries.id <$> series_table db) then raise IntegrityError
  else modify (set_series_table (series_table db ++ [obj]));; mret obj.

(** [obj.save()] of a series that has a row, at time [now]: the row takes
    the attributes of the instance and a fresh [modified_at]. *)
Definition PermitSeries_save (obj : PermitSeries.t) (now : Z) : M unit :=
  db ← get;
  modify (set_series_table
    ((λ s, if decide (PermitSeries.id s = PermitSeries.id obj)
           then {| PermitSeries.id := PermitSeries.id obj;
                   PermitSeries.created_at := PermitSeries.created_at obj;
                   PermitSeries.modified_at := now;
                   PermitSeries.active := PermitSeries.active obj |}
           else s) <$> series_table db)).

(** Deletion of series rows under [on_delete=models.PROTECT] of
    [Permit.series]: refused as a whole while a permit refers to one of
    the rows. *)
Definition delete_series (rows : list PermitSeries.t) : M Z :=
  db ← get;
  if decide (Exists (λ p, Permit.series p ∈ PermitSeries.id <$> rows)
               (permit_table db)) then
    raise ProtectedError
  else
    modify (set_series_table
              (filter (λ s, PermitSeries.id s ∉ PermitSeries.id <$> rows)
                      (series_table db)));;
    mret (Z.of_nat (length rows)).

(** Modelled from the spec: the sweep itself is not among the sources,
    only the query set [prunable] is.  [prune()] hard-deletes every
    inactive series created before [now - retention_window]; a series that
    permits still refer to is protected by the foreign key, and the
    storage refuses the delete. *)
Definition prune (now prunable_after : Z) : M Z :=
  db ← get;
  delete_series (PermitSeriesQuerySet.prunable now prunable_after
                   (series_table db)).

(** The flags after an activation of [pk] at time [now]. *)
Definition set_active_flags (pk now : Z) (s : PermitSeries.t) : PermitSeries.t :=
  if decide (PermitSeries.id s = pk)
  then {| PermitSeries.id := PermitSeries.id s;
          PermitSeries.created_at := PermitSeries.created_at s;
          PermitSeries.modified_at := now;
          PermitSeries.active := true |}
  else {| PermitSeries.id := PermitSeries.id s;
          PermitSeries.created_at := PermitSeries.created_at s;
          PermitSeries.modified_at := PermitSeries.modified_at s;
          PermitSeries.active := false |}.

(** Modelled from the spec: the view behind
    [POST enforcement/v1/permitseries/<pk>/activate/] is not among the
    sources, only its tests are.  [activate(series)] sets this series'
    active flag true and every other series' flag false, atomically, in
    one transaction; pruning is a maintenance operation that the
    activation does not trigger.  The spec says nothing of a series that
    does not exist: the request is then refused and nothing changes. *)
Definition activate (pk now : Z) : M unit :=
  atomic (
    db ← get;
    if decide (series_exists pk db) then
      modify (set_series_table (set_active_flags pk now <$> series_table db))
    else raise Http404).

(** Two endpoints that run the sweep with the activation, in one
    transaction: after the flags are set, and before.  The view is not
    among the sources; the two only serve to tell what the tests of the
    repository settle about the endpoint and what they leave open. *)
Definition activate_then_prune (prunable_after pk now : Z) : M unit :=
  atomic (activate pk now;; prune now prunable_after;; mret tt).

Definition prune_then_activate (prunable_after pk now : Z) : M unit :=
  atomic (prune now prunable_after;; activate pk now).

(** ** The monitoring export: [parkings/api/monitoring/export_parkings.py] *)

Module ExportParkings.

(** What the export reads of a [Parking] when it selects the rows.  The
    model class is not among the sources: an end time or a zone that is
    missing is [None], and a comparison with a missing value does not
    hold. *)
Module Parking.
Record t : Type := {
  id : Z;
  time_start : Z;
  time_end : option Z;
  operator_id : string;
  zone_code : option string;
}.
#[global] Instance eq_dec : EqDecision t.
Proof. solve_decision. Defined.
End Parking.

Module ParkingCheck.
Record t : Type := {
  found_parking : option Z;
}.
End ParkingCheck.

(** An item of [operators], and one of [payment_zones]. *)
Module OperatorItem.
Record t : Type := {
  id : string;
  name : option string;
}.
End OperatorItem.

Module PaymentZoneItem.
Record t : Type := {
  code : string;
  name : option string;
}.
End PaymentZoneItem.

(** The data of [ExportFilterSerializer], every key of which may be
    absent. *)
Record Data : Type := {
  operators : option (list OperatorItem.t);
  payment_zones : option (list PaymentZoneItem.t);
  parking_check : option bool;
  time_start : option Z;
  time_end : option Z;
}.

Inductive Outcome (A : Type) : Type :=
| Returned (a : A)
| ValidationError (message : string)
| KeyError (key : string).
Arguments Returned {A} a.
Arguments ValidationError {A} message.
Arguments KeyError {A} key.

(** [ExportFilterSerializer.validate].  A datetime is never falsy, so
    [not time_start] holds of a missing value only. *)
Definition validate (data : Data) : Outcome Data :=
  match time_start data, time_end data with
  | Some start, Some stop =>
      if decide (start > stop) then
        ValidationError "End date must be after start date."
      else Returned data
  | _, _ => ValidationError "You must provde start date and end date"
  end.

(** The truth value of a list taken from the data: missing and empty are
    both false. *)
Definition truthy {A : Type} (value : option (list A)) : Prop :=
  match value with
  | Some (_ :: _) => True
  | _ => False
  end.

#[global] Instance truthy_dec {A : Type} (value : option (list A)) :
  Decision (truthy value).
Proof. destruct value as [[|? ?]|]; apply _. Defined.

Definition items {A : Type} (value : option (list A)) : list A :=
  match value with
  | Some l => l
  | None => []
  end.

(** The keyword arguments [kwargs] that [Parking.objects.filter] is called
    with. *)
Definition kwargs (start stop : Z) (filters : Data) (park : Parking.t) : Prop :=
  Parking.time_start park <= stop
  ∧ (∃ e, Parking.time_end park = Some e ∧ e >= start)
  ∧ (truthy (payment_zones filters) →
     ∃ code, Parking.zone_code park = Some code
             ∧ code ∈ PaymentZoneItem.code <$> items (payment_zones filters))
  ∧ (truthy (operators filters) →
     Parking.operator_id park
     ∈ OperatorItem.id <$> items (operators filters)).

#[global] Instance time_end_gte_dec (park : Parking.t) (start : Z) :
  Decision (∃ e, Parking.time_end park = Some e ∧ e >= start).
Proof.
  destruct (Parking.time_end park) as [e|].
  - destruct (decide (e >= start)) as [He|He].
    + left. by exists e.
    + right. intros (e' & [= <-] & He'). by apply He.
  - right. by intros (e' & [=] & _).
Defined.

#[global] Instance zone_code_in_dec (park : Parking.t) (codes : list string) :
  Decision (∃ code, Parking.zone_code park = Some code ∧ code ∈ codes).
Proof.
  destruct (Parking.zone_code park) as [code|].
  - destruct (decide (code ∈ codes)) as [Hc|Hc].
    + left. by exists code.
    + right. intros (c' & [= <-] & Hc'). by apply Hc.
  - right. by intros (c' & [=] & _).
Defined.

#[global] Instance kwargs_dec start stop filters park :
  Decision (kwargs start stop filters park).
Proof. unfold kwargs. apply _. Defined.

(** [order_by("-time_start")]: [a] may come before [b]. *)
Definition later_start (a b : Parking.t) : Prop :=
  Parking.time_start b <= Parking.time_start a.

#[global] Instance later_start_dec a b : Decision (later_start a b).
Proof. unfold later_start. apply _. Defined.

(** The primary keys that [parking_check_parking_ids] selects: those of
    the parkings of the query set that some check has found. *)
Definition parking_check_parking_ids (checks : list ParkingCheck.t)
    (parkings : list Parking.t) : list Z :=
  remove_dups
    (check ← checks;
     match ParkingCheck.found_parking check with
     | Some pk => if decide (pk ∈ Parking.id <$> parkings) then [pk] else []
     | None => []
     end).

(** The query set [parkings] that [CSVRenderer.render] iterates over, as
    the database evaluates it: the rows of the filters, in the order of
    [order_by].  The text of the CSV file is not part of the model. *)
Definition render_parkings (filters : Data) (table : list Parking.t)
    (checks : list ParkingCheck.t) : Outcome (list Parking.t) :=
  match time_start filters with
  | None => KeyError "time_start"
  | Some start =>
      match time_end filters with
      | None => KeyError "time_end"
      | Some stop =>
          let parkings := filter (kwargs start stop filters) table in
          let parkings :=
            if decide (parking_check filters = Some true) then
              filter (λ park, Parking.id park
                              ∈ parking_check_parking_ids checks parkings)
                     parkings
            else parkings in
          Returned (merge_sort later_start parkings)
      end
  end.

End ExportParkings.

(** * Vocabulary of the properties *)

(** The row that a pair of a subject and an area stands for. *)
Definition intersection_row (self : Permit.t) (subject : Subject.t)
    (area : Area.t) : PermitCacheItem.t :=
  {| PermitCacheItem.id := None;
     PermitCacheItem.permit := Permit.id self;
     PermitCacheItem.registration_number :=
       Parking.normalize_reg_num (Subject.registration_number subject);
     PermitCacheItem.area_identifier := Area.area area;
     PermitCacheItem.start_time :=
       Z.max (Subject.start_time subject) (Area.start_time area);
     PermitCacheItem.end_time :=
       Z.min (Subject.end_time subject) (Area.end_time area) |}.

(** The cache rows of a permit, and what the spec compares of a row. *)
Definition cache_rows_of (self : Permit.t) (db : DB) : list PermitCacheItem.t :=
  filter (λ c, PermitCacheItem.permit c = Permit.id self) (cache_table db).

Definition row_tuple (c : PermitCacheItem.t) : string * string * Z * Z :=
  (PermitCacheItem.registration_number c, PermitCacheItem.area_identifier c,
   PermitCacheItem.start_time c, PermitCacheItem.end_time c).

(** The rows of a bulk insert, numbered from the sequence. *)
Fixpoint number_rows (next : Z) (rows : list PermitCacheItem.t)
    : list PermitCacheItem.t :=
  match rows with
  | [] => []
  | row :: rest => with_cache_id row next :: number_rows (next + 1) rest
  end.

(** Two database states with the same rows. *)
Definition same_rows (db db' : DB) : Prop :=
  series_table db' = series_table db
  ∧ permit_table db' = permit_table db
  ∧ cache_table db' = cache_table db.

(** No stored interval is empty or inverted. *)
Definition cache_ok (db : DB) : Prop :=
  Forall (λ c, PermitCacheItem.start_time c < PermitCacheItem.end_time c)
         (cache_table db).

(** The primary keys of the cache table are those the sequence handed out. *)
Definition cache_seq_ok (db : DB) : Prop :=
  Forall (λ c, ∃ pk, PermitCacheItem.id c = Some pk ∧ pk < cache_seq db)
         (cache_table db).

(** What [Model.save] leaves alone, and what it returns. *)
Record saved (self self1 : Permit.t) (db db' : DB) : Prop := {
  saved_id : is_Some (Permit.id self1);
  saved_same_id : is_Some (Permit.id self) → self1 = self;
  saved_series : Permit.series self1 = Permit.series self;
  saved_external_id : Permit.external_id self1 = Permit.external_id self;
  saved_subjects : Permit.subjects self1 = Permit.subjects self;
  saved_areas : Permit.areas self1 = Permit.areas self;
  saved_row : self1 ∈ permit_table db';
  saved_others :
    other_rows self1 (permit_table db') = other_rows self1 (permit_table db);
  saved_series_table : series_table db' = series_table db;
  saved_cache_table : cache_table db' = cache_table db;
  saved_cache_seq : cache_seq db' = cache_seq db;
}.

(** The cache table satisfies its primary key, and the keys in use lie
    below the sequence. *)
Definition cache_keys_ok (db : DB) : Prop :=
  NoDup (PermitCacheItem.id <$> cache_table db) ∧ cache_seq_ok db.

(** The sequence of the cache table never goes back, whatever the outcome. *)
Definition cache_seq_grows {A : Type} (m : M A) : Prop :=
  ∀ db, cache_seq db <= cache_seq (snd (m db)).

(** The operations on the store, and the states they lead to. *)
Inductive Op : Type :=
| OpSave (self : Permit.t)
| OpBulkCreate (permits : list Permit.t)
| OpSeriesCreate (active : bool) (now : Z)
| OpSeriesSave (obj : PermitSeries.t) (now : Z)
| OpActivate (pk now : Z)
| OpPrune (now prunable_after : Z).

Definition run_op (op : Op) (db : DB) : DB :=
  match op with
  | OpSave self => snd (save self db)
  | OpBulkCreate permits => snd (PermitQuerySet.bulk_create permits db)
  | OpSeriesCreate active now => snd (PermitSeries_create active now db)
  | OpSeriesSave obj now => snd (PermitSeries_save obj now db)
  | OpActivate pk now => snd (activate pk now db)
  | OpPrune now prunable_after => snd (prune now prunable_after db)
  end.

Definition run (ops : list Op) (db : DB) : DB :=
  foldl (λ db op, run_op op db) db ops.

(** ** Registration numbers that differ only in format *)







(** A permit one of whose subject or area entries fails the schema. *)
Definition invalid_entry (self : Permit.t) : Prop :=
  Exists (λ item, ¬ subjects_schema item) (Permit.subjects self)
  ∨ Exists (λ item, ¬ areas_schema item) (Permit.areas self).

(** ** Time spent inactive *)


Definition inactive_in (table : list PermitSeries.t) (pk : Z) : Prop :=
  Exists (λ s, PermitSeries.id s = pk ∧ PermitSeries.active s = false) table.

#[global] Instance inactive_in_dec table pk : Decision (inactive_in table pk).
Proof. unfold inactive_in. apply _. Defined.




(** ** The scenarios of the tests *)

Definition day : Z := 86400000000.

(** The time at which the tests run. *)
Definition test_now : Z := 1700000000000000.

(** [test_series_get_activated], up to the request. *)
Definition test_series_get_activated_ops : list Op :=
  [ OpSeriesCreate false test_now; OpSeriesCreate true test_now ].

(** [test_old_series_are_pruned], up to the request: the second series is
    given a [created_at] three days back and saved. *)
Definition old_permit_series : PermitSeries.t :=
  {| PermitSeries.id := 2; PermitSeries.created_at := test_now - 3 * day;
     PermitSeries.modified_at := test_now; PermitSeries.active := false |}.

Definition test_old_series_are_pruned_ops : list Op :=
  [ OpSeriesCreate false test_now; OpSeriesCreate false test_now;
    OpSeriesSave old_permit_series test_now ].

Definition test_old_series_are_pruned_db : DB :=
  run test_old_series_are_pruned_ops empty_db.


(** The rows of the two series of [test_series_get_activated]. *)
Definition new_permit_series : PermitSeries.t :=
  {| PermitSeries.id := 1; PermitSeries.created_at := test_now;
     PermitSeries.modified_at := test_now; PermitSeries.active := false |}.

Definition old_active_permit_series : PermitSeries.t :=
  {| PermitSeries.id := 2; PermitSeries.created_at := test_now;
     PermitSeries.modified_at := test_now; PermitSeries.active := true |}.

(** The tests post their request to the endpoint, which is given the
    primary key of the series and the time of the request, here one
    microsecond after the set-up.

    [test_series_get_activated] for an endpoint: with a new inactive
    series and an old active one, the request for the new one is answered
    with 200, [latest_active()] is the new series afterwards, and the old
    one is there and no longer active. *)
Definition test_series_get_activated (post_activate : Z → Z → M unit) : Prop :=
  ∃ db',
    post_activate 1 (test_now + 1) (run test_series_get_activated_ops empty_db)
    = (Ok tt, db')
    ∧ PermitSeries.id
        <$> PermitSeriesQuerySet.latest_active (series_table db')
      = Some 1
    ∧ ∃ old, old ∈ series_table db' ∧ PermitSeries.id old = 2
             ∧ PermitSeries.active old = false.

(** [test_old_series_are_pruned] for an endpoint: there are two series
    before the request, one of them with a [created_at] three days back;
    the request for the other one is answered with 200, and one series is
    left afterwards. *)
Definition test_old_series_are_pruned (post_activate : Z → Z → M unit) : Prop :=
  length (series_table test_old_series_are_pruned_db) = 2%nat
  ∧ ∃ db',
      post_activate 1 (test_now + 1) test_old_series_are_pruned_db
      = (Ok tt, db')
      ∧ length (series_table db') = 1%nat.

(** A store on which the place of the sweep shows: the first series is
    active and four days old, the second one is new. *)
Definition old_active_series_db : DB :=
  run [ OpSeriesCreate true (test_now - 4 * day);
        OpSeriesCreate false test_now ] empty_db.

(** ** The life cycle of a series *)

(** The operations of the life cycle: a series is created inactive
    ([active] has [default=False]), it becomes active by an activation
    only, and an instance that is saved is an inactive one.  Permits may
    be written and the sweep may run at any time. *)
Definition lifecycle (op : Op) : Prop :=
  match op with
  | OpSeriesCreate active _ => active = false
  | OpSeriesSave obj _ => PermitSeries.active obj = false
  | OpSave _ | OpBulkCreate _ | OpActivate _ _ | OpPrune _ _ => True
  end.

(** ** Permits of the scenarios *)

(** Scenario 6 of the spec, with the days counted from 2023-01-01. *)
Definition scenario_6 : Permit.t :=
  {| Permit.id := Some 1; Permit.series := 1; Permit.external_id := None;
     Permit.subjects :=
       [ {| Subject.start_time := 0; Subject.end_time := 9 * day;
            Subject.registration_number := "ABC-123" |} ];
     Permit.areas :=
       [ {| Area.start_time := 4 * day; Area.end_time := 14 * day;
            Area.area := "A1" |} ] |}.

(** Scenario 7 of the spec, in hours: the two intervals touch at 10:00. *)
Definition scenario_7_subject : Subject.t :=
  {| Subject.start_time := 0; Subject.end_time := 10;
     Subject.registration_number := "X" |}.

Definition scenario_7_area : Area.t :=
  {| Area.start_time := 10; Area.end_time := 20; Area.area := "A" |}.

Definition scenario_7 : Permit.t :=
  {| Permit.id := Some 1; Permit.series := 1; Permit.external_id := None;
     Permit.subjects := [scenario_7_subject];
     Permit.areas := [scenario_7_area] |}.

(** A new permit with one vehicle entered twice, in two spellings and
    over two overlapping periods, for one area. *)
Definition two_period_permit : Permit.t :=
  {| Permit.id := None; Permit.series := 1;
     Permit.external_id := Some "P-1";
     Permit.subjects :=
       [ {| Subject.start_time := 0; Subject.end_time := 10;
            Subject.registration_number := "ABC-123" |};
         {| Subject.start_time := 5; Subject.end_time := 20;
            Subject.registration_number := "abc 123" |} ];
     Permit.areas :=
       [ {| Area.start_time := 0; Area.end_time := 30; Area.area := "A1" |} ] |}.

(** A new permit without subjects. *)
Definition blank_permit : Permit.t :=
  {| Permit.id := None; Permit.series := 1; Permit.external_id := None;
     Permit.subjects := [];
     Permit.areas :=
       [ {| Area.start_time := 0; Area.end_time := 30; Area.area := "A1" |} ] |}.

(** A new permit whose subject entry fails the schema: the registration
    number has 21 characters. *)
Definition bad_permit : Permit.t :=
  {| Permit.id := None; Permit.series := 1; Permit.external_id := None;
     Permit.subjects :=
       [ {| Subject.start_time := 0; Subject.end_time := 10;
            Subject.registration_number := "ABCDEFGHIJKLMNOPQRSTU" |} ];
     Permit.areas :=
       [ {| Area.start_time := 0; Area.end_time := 30; Area.area := "A1" |} ] |}.

(** A store with one active series, and the same after a [save] of
    [two_period_permit]. *)
Definition one_series_db : DB :=
  run [ OpSeriesCreate true test_now ] empty_db.

Definition one_permit_db : DB :=
  run [ OpSave two_period_permit ] one_series_db.

(** A permit for two vehicles in two areas over two separate periods: X
    in A from 0 to 10, Y in B from 20 to 30. *)
Definition two_vehicle_permit : Permit.t :=
  {| Permit.id := None; Permit.series := 1; Permit.external_id := None;
     Permit.subjects :=
       [ {| Subject.start_time := 0; Subject.end_time := 10;
            Subject.registration_number := "X" |};
         {| Subject.start_time := 20; Subject.end_time := 30;
            Subject.registration_number := "Y" |} ];
     Permit.areas :=
       [ {| Area.start_time := 0; Area.end_time := 10; Area.area := "A" |};
         {| Area.start_time := 20; Area.end_time := 30; Area.area := "B" |} ] |}.

Definition two_vehicle_db : DB :=
  run [ OpSave two_vehicle_permit ] one_series_db.

(** The state after the INSERT of a new permit under the next key. *)
Definition inserted (self : Permit.t) (db : DB) : DB :=
  {| series_table := series_table db; series_seq := series_seq db;
     permit_table := permit_table db ++ [with_id self (permit_seq db)];
     permit_seq := permit_seq db + 1;
     cache_table := cache_table db; cache_seq := cache_seq db |}.

(** The cache agrees with the permits: the permit table satisfies its
    primary key, every stored permit has its key, every cache row belongs
    to a stored permit, and the rows that a stored permit owns are, up to
    their primary keys, those that the generator gives for it. *)
Record cache_coherent (db : DB) : Prop := {
  coherent_keys : NoDup (Permit.id <$> permit_table db);
  coherent_ids : Forall (λ p, is_Some (Permit.id p)) (permit_table db);
  coherent_owner :
    Forall (λ c, PermitCacheItem.permit c ∈ Permit.id <$> permit_table db)
           (cache_table db);
  coherent_rows :
    Forall (λ p, row_tuple <$> cache_rows_of p db
                 = row_tuple <$> _make_cache_items p)
           (permit_table db);
}.

(** Three parkings, of which the last one has not ended, and a filter
    that asks for the window from 0 to 35 without any other restriction. *)
Definition export_table : list ExportParkings.Parking.t :=
  [ {| ExportParkings.Parking.id := 1;
       ExportParkings.Parking.time_start := 10;
       ExportParkings.Parking.time_end := Some 20;
       ExportParkings.Parking.operator_id := "op1";
       ExportParkings.Parking.zone_code := Some "1" |};
    {| ExportParkings.Parking.id := 2;
       ExportParkings.Parking.time_start := 30;
       ExportParkings.Parking.time_end := Some 40;
       ExportParkings.Parking.operator_id := "op2";
       ExportParkings.Parking.zone_code := None |};
    {| ExportParkings.Parking.id := 3;
       ExportParkings.Parking.time_start := 5;
       ExportParkings.Parking.time_end := None;
       ExportParkings.Parking.operator_id := "op1";
       ExportParkings.Parking.zone_code := Some "2" |} ].

Definition export_filters : ExportParkings.Data :=
  {| ExportParkings.operators := None;
     ExportParkings.payment_zones := Some [];
     ExportParkings.parking_check := None;
     ExportParkings.time_start := Some 0;
     ExportParkings.time_end := Some 35 |}.

(** * Properties *)

(** ** The generator *)

Lemma elem_of_make_cache_items (self : Permit.t) (row : PermitCacheItem.t) :
  row ∈ _make_cache_items self ↔
  ∃ subject area,
    subject ∈ Permit.subjects self ∧ area ∈ Permit.areas self
    ∧ Z.max (Subject.start_time subject) (Area.start_time area)
      < Z.min (Subject.end_time subject) (Area.end_time area)
    ∧ row = intersection_row self subject area.
Proof.
  unfold _make_cache_items. rewrite list_elem_of_bind. split.
  - intros (area & Hrow & Harea). apply list_elem_of_bind in Hrow.
    destruct Hrow as (subject & Hrow & Hsubject).
    case_decide as Hcmp.
    + by apply elem_of_nil in Hrow.
    + apply list_elem_of_singleton in Hrow. exists subject, area.
      repeat split; [done | done | lia | done].
  - intros (subject & area & Hsubject & Harea & Hlt & ->).
    exists area. split; [|done]. apply list_elem_of_bind.
    exists subject. split; [|done].
    case_decide; [lia|]. by apply list_elem_of_singleton.
Qed.

Lemma make_cache_items_interval (self : Permit.t) (row : PermitCacheItem.t) :
  row ∈ _make_cache_items self →
  PermitCacheItem.start_time row < PermitCacheItem.end_time row.
Proof.
  rewrite elem_of_make_cache_items.
  by intros (subject & area & _ & _ & Hlt & ->).
Qed.

Lemma make_cache_items_permit (self : Permit.t) (row : PermitCacheItem.t) :
  row ∈ _make_cache_items self → PermitCacheItem.permit row = Permit.id self.
Proof.
  rewrite elem_of_make_cache_items.
  by intros (subject & area & _ & _ & _ & ->).
Qed.

(** C1.  The rows generated for a permit are exactly the non-empty
    intersections over subjects × areas: a row is generated if and only if
    it is the row of some pair whose [max] of the start times lies strictly
    before the [min] of the end times; the row of a pair with
    [start >= end], touching intervals included, is not generated. *)
Theorem C1_cache_rows_are_nonempty_intersections (self : Permit.t) :
  (∀ row,
     row ∈ _make_cache_items self ↔
     ∃ subject area,
       subject ∈ Permit.subjects self ∧ area ∈ Permit.areas self
       ∧ Z.max (Subject.start_time subject) (Area.start_time area)
         < Z.min (Subject.end_time subject) (Area.end_time area)
       ∧ row = intersection_row self subject area)
  ∧ (∀ subject area,
       Z.max (Subject.start_time subject) (Area.start_time area)
         >= Z.min (Subject.end_time subject) (Area.end_time area) →
       intersection_row self subject area ∉ _make_cache_items self).
Proof.
  split; [apply elem_of_make_cache_items|].
  intros subject area Hge Hin.
  apply make_cache_items_interval in Hin. simpl in Hin. lia.
Qed.

(** ** Database code, step by step *)

Ltac unfold_M :=
  unfold mbind, M_bind, mret, M_ret, get, modify, raise in *.

Lemma full_clean_frame (self : Permit.t) (db : DB) :
  snd (full_clean self db) = db.
Proof. unfold full_clean. unfold_M. by case_decide. Qed.

Lemma full_clean_Raise (self : Permit.t) (db db' : DB) (e : Exception) :
  full_clean self db = (Raise e, db') → db' = db ∧ ∃ fields, e = ValidationError fields.
Proof.
  unfold full_clean. unfold_M. case_decide; intros [= <- <-]; eauto.
Qed.

Lemma full_clean_Ok (self : Permit.t) (db db' : DB) :
  full_clean self db = (Ok tt, db') ↔
  db' = db ∧ clean_fields self db = [] ∧ validate_unique self db [] = [].
Proof.
  unfold full_clean. unfold_M. split.
  - case_decide as Herr; [|done]. intros [= <-].
    destruct (app_eq_nil _ _ Herr) as [Hf Hu]. rewrite Hf in Hu. done.
  - intros (-> & Hf & Hu). by rewrite Hf, Hu.
Qed.

Lemma insert_permit_Ok (row : Permit.t) (db db' : DB) (u : unit) :
  insert_permit row db = (Ok u, db') →
  db' = set_permit_table (permit_table db ++ [row]) db.
Proof.
  unfold insert_permit. unfold_M. repeat case_decide; by intros [= <-].
Qed.

Lemma update_permit_Ok (row : Permit.t) (db db' : DB) (u : unit) :
  update_permit row db = (Ok u, db') →
  db' = set_permit_table
          ((λ q, if decide (Permit.id q = Permit.id row) then row else q)
             <$> permit_table db) db.
Proof.
  unfold update_permit. unfold_M. repeat case_decide; by intros [= <-].
Qed.

Lemma other_rows_insert (row : Permit.t) (table : list Permit.t) :
  other_rows row (table ++ [row]) = other_rows row table.
Proof.
  unfold other_rows. rewrite filter_app, filter_cons_False by naive_solver.
  by rewrite filter_nil, app_nil_r.
Qed.

Lemma other_rows_update (row : Permit.t) (table : list Permit.t) :
  other_rows row
    ((λ q, if decide (Permit.id q = Permit.id row) then row else q) <$> table)
  = other_rows row table.
Proof.
  unfold other_rows. induction table as [|q table IH]; [done|].
  rewrite fmap_cons. case_decide as Hq.
  - rewrite !filter_cons_False by naive_solver. apply IH.
  - rewrite !filter_cons_True by done. by rewrite IH.
Qed.

Lemma Model_insert_Ok (self self1 : Permit.t) (db db' : DB) :
  Model_insert self db = (Ok self1, db') → saved self self1 db db'.
Proof.
  unfold Model_insert. destruct (Permit.id self) as [pk|] eqn:Hid.
  - unfold mbind, M_bind at 1.
    destruct (insert_permit self db) as [[[]|e] db1] eqn:Hins; [|done].
    apply insert_permit_Ok in Hins as ->. unfold_M. intros [= <- <-].
    split; simpl; try done.
    + apply elem_of_app. right. by apply list_elem_of_singleton.
    + apply other_rows_insert.
  - unfold mbind, M_bind at 1. unfold nextval_permit at 1.
    unfold mbind, M_bind at 1.
    match goal with |- context [insert_permit ?r ?d] =>
      destruct (insert_permit r d) as [[[]|e] db1] eqn:Hins; [|done] end.
    apply insert_permit_Ok in Hins as ->. unfold_M. intros [= <- <-].
    split; simpl; try done.
    + rewrite Hid. by intros [? ?].
    + apply elem_of_app. right. by apply list_elem_of_singleton.
    + apply other_rows_insert.
Qed.

Lemma Model_save_Ok (self self1 : Permit.t) (db db' : DB) :
  Model_save self db = (Ok self1, db') → saved self self1 db db'.
Proof.
  unfold Model_save. destruct (Permit.id self) as [pk|] eqn:Hid.
  - unfold mbind, M_bind at 1. unfold get at 1. unfold mbind, M_bind at 1.
    case_decide as Hrow.
    + destruct (update_permit self db) as [[[]|e] db1] eqn:Hup; [|done].
      apply update_permit_Ok in Hup as ->. unfold_M. intros [= <- <-].
      split; simpl; try done.
      * apply list_elem_of_fmap in Hrow as (q & Hq & Hin).
        apply list_elem_of_fmap. exists q. split; [|done].
        rewrite decide_True; [done | congruence].
      * apply other_rows_update.
    + intros H. apply (Model_insert_Ok self self1 db db').
      unfold Model_insert. rewrite Hid. exact H.
  - apply Model_insert_Ok.
Qed.

Lemma delete_cache_items_eq (self : Permit.t) (db : DB) :
  delete_cache_items self db =
  (Ok tt, set_cache_table
            (filter (λ c, PermitCacheItem.permit c ≠ Permit.id self)
                    (cache_table db)) db).
Proof. reflexivity. Qed.

Lemma insert_cache_item_Ok (row : PermitCacheItem.t) (db db' : DB) (u : unit) :
  insert_cache_item row db = (Ok u, db') →
  db' = {| series_table := series_table db; series_seq := series_seq db;
           permit_table := permit_table db; permit_seq := permit_seq db;
           cache_table := cache_table db ++ [with_cache_id row (cache_seq db)];
           cache_seq := cache_seq db + 1 |}.
Proof.
  unfold insert_cache_item, nextval_cache. unfold_M. simpl.
  repeat case_decide; by intros [= <-].
Qed.

Lemma cache_bulk_create_Ok (cache_items : list PermitCacheItem.t)
    (db db' : DB) (u : unit) :
  cache_bulk_create cache_items db = (Ok u, db') →
  db' = {| series_table := series_table db; series_seq := series_seq db;
           permit_table := permit_table db; permit_seq := permit_seq db;
           cache_table :=
             cache_table db ++ number_rows (cache_seq db) cache_items;
           cache_seq := cache_seq db + Z.of_nat (length cache_items) |}.
Proof.
  revert db. induction cache_items as [|row rest IH]; intros db; simpl.
  - unfold_M. intros [= <- <-]. destruct db; simpl. f_equal.
    + by rewrite app_nil_r.
    + lia.
  - unfold mbind, M_bind at 1.
    destruct (insert_cache_item row db) as [[[]|e] db1] eqn:Hins; [|done].
    apply insert_cache_item_Ok in Hins as ->. intros H.
    apply IH in H as ->. simpl. f_equal.
    + by rewrite <- app_assoc.
    + lia.
Qed.

Lemma atomic_Ok {A : Type} (block : M A) (db db' : DB) (a : A) :
  atomic block db = (Ok a, db') ↔ block db = (Ok a, db').
Proof.
  unfold atomic. destruct (block db) as [[a1|e] db1]; split; congruence.
Qed.

Lemma atomic_Raise {A : Type} (block : M A) (db db' : DB) (e : Exception) :
  atomic block db = (Raise e, db') → same_rows db db'.
Proof.
  unfold atomic. destruct (block db) as [[a1|e1] db1]; [done|].
  by intros [= _ <-].
Qed.

Lemma same_rows_refl (db : DB) : same_rows db db.
Proof. by repeat split. Qed.

Lemma bind_Ok {A B : Type} (m : M A) (f : A → M B) (db db' : DB) (b : B) :
  (m ≫= f) db = (Ok b, db') ↔
  ∃ a db1, m db = (Ok a, db1) ∧ f a db1 = (Ok b, db').
Proof.
  unfold mbind, M_bind. destruct (m db) as [[a|e] db1]; split.
  - intros H. by exists a, db1.
  - by intros (a' & db1' & [= -> ->] & H).
  - done.
  - by intros (a' & db1' & [=] & _).
Qed.

Lemma bind_Raise {A B : Type} (m : M A) (f : A → M B) (db db' : DB)
    (e : Exception) :
  (m ≫= f) db = (Raise e, db') ↔
  m db = (Raise e, db')
  ∨ ∃ a db1, m db = (Ok a, db1) ∧ f a db1 = (Raise e, db').
Proof.
  unfold mbind, M_bind. destruct (m db) as [[a|e1] db1]; split.
  - intros H. right. by exists a, db1.
  - intros [[=] | (a' & db1' & [= -> ->] & H)]. done.
  - intros [= -> ->]. by left.
  - intros [[= -> ->] | (a' & db1' & [=] & _)]. done.
Qed.

Lemma save_block_Ok (self self1 : Permit.t) (db db1 : DB) :
  save_block self db = (Ok self1, db1) →
  ∃ db_mid,
    Model_save self db = (Ok self1, db_mid)
    ∧ db1 = {| series_table := series_table db_mid;
               series_seq := series_seq db_mid;
               permit_table := permit_table db_mid;
               permit_seq := permit_seq db_mid;
               cache_table :=
                 filter (λ c, PermitCacheItem.permit c ≠ Permit.id self1)
                        (cache_table db)
                 ++ number_rows (cache_seq db) (_make_cache_items self1);
               cache_seq :=
                 cache_seq db
                 + Z.of_nat (length (_make_cache_items self1)) |}.
Proof.
  unfold save_block. rewrite bind_Ok.
  intros (self' & db_mid & Hsave & H).
  apply bind_Ok in H as ([] & db2 & Hdel & H).
  rewrite delete_cache_items_eq in Hdel. injection Hdel as <-.
  apply bind_Ok in H as ([] & db3 & Hbulk & H).
  injection H as <- <-.
  apply cache_bulk_create_Ok in Hbulk as ->. simpl.
  exists db_mid. split; [done|].
  apply Model_save_Ok in Hsave as [].
  by rewrite saved_cache_table0, saved_cache_seq0.
Qed.

Lemma save_Ok (self self1 : Permit.t) (db db1 : DB) :
  save self db = (Ok self1, db1) →
  full_clean self db = (Ok tt, db) ∧ save_block self db = (Ok self1, db1).
Proof.
  unfold save. rewrite bind_Ok. intros ([] & db0 & Hclean & H).
  pose proof (full_clean_frame self db) as Hframe.
  rewrite Hclean in Hframe. simpl in Hframe. subst db0.
  split; [done | apply atomic_Ok; exact H].
Qed.

Lemma save_Raise (self : Permit.t) (db db' : DB) (e : Exception) :
  save self db = (Raise e, db') → same_rows db db'.
Proof.
  unfold save. rewrite bind_Raise. intros [H | ([] & db0 & Hclean & H)].
  - apply full_clean_Raise in H as [-> _]. apply same_rows_refl.
  - pose proof (full_clean_frame self db) as Hframe.
    rewrite Hclean in Hframe. simpl in Hframe. subst db0.
    eapply atomic_Raise. exact H.
Qed.

(** ** Bulk creation *)

Lemma QuerySet_bulk_create_Ok (permits created : list Permit.t) (db db' : DB) :
  QuerySet_bulk_create permits db = (Ok created, db') →
  Forall2 (λ p q, Permit.subjects q = Permit.subjects p
                  ∧ Permit.areas q = Permit.areas p
                  ∧ is_Some (Permit.id q)) permits created
  ∧ series_table db' = series_table db
  ∧ cache_table db' = cache_table db
  ∧ cache_seq db' = cache_seq db.
Proof.
  revert created db. induction permits as [|p rest IH]; intros created db; simpl.
  - unfold_M. intros [= <- <-]. by repeat split.
  - rewrite bind_Ok. intros (q & db1 & Hins & H).
    apply bind_Ok in H as (qs & db2 & Hrest & H). injection H as <- <-.
    apply Model_insert_Ok in Hins as [].
    apply IH in Hrest as (Hall & Hs & Hc & Hq).
    repeat split; [by constructor | congruence ..].
Qed.

Lemma collect_cache_items_Ok (created_permits : list Permit.t)
    (cache_items items : list PermitCacheItem.t) (db db' : DB) :
  PermitQuerySet.collect_cache_items created_permits cache_items db
    = (Ok items, db') →
  db' = db
  ∧ items = cache_items ++ (created_permits ≫= _make_cache_items)
  ∧ Forall (λ p, full_clean p db = (Ok tt, db)) created_permits.
Proof.
  revert cache_items. induction created_permits as [|p rest IH];
    intros cache_items; simpl.
  - unfold_M. intros [= <- <-]. by rewrite app_nil_r.
  - rewrite bind_Ok. intros ([] & db1 & Hclean & H).
    pose proof (full_clean_frame p db) as Hframe.
    rewrite Hclean in Hframe. simpl in Hframe. subst db1.
    apply IH in H as (-> & -> & Hall).
    repeat split; [by rewrite <- app_assoc | by constructor].
Qed.

Lemma bulk_create_block_Ok (permits created : list Permit.t) (db db' : DB) :
  PermitQuerySet.bulk_create_block permits db = (Ok created, db') →
  series_table db' = series_table db
  ∧ cache_table db' =
      cache_table db
      ++ number_rows (cache_seq db) (created ≫= _make_cache_items)
  ∧ cache_seq db' =
      cache_seq db + Z.of_nat (length (created ≫= _make_cache_items)).
Proof.
  unfold PermitQuerySet.bulk_create_block. rewrite bind_Ok.
  intros (created' & db1 & Hins & H).
  apply bind_Ok in H as (items & db2 & Hcollect & H).
  apply bind_Ok in H as ([] & db3 & Hbulk & H). injection H as <- <-.
  apply QuerySet_bulk_create_Ok in Hins as (_ & Hs & Hc & Hq).
  apply collect_cache_items_Ok in Hcollect as (-> & -> & _).
  apply cache_bulk_create_Ok in Hbulk as ->. simpl.
  by rewrite Hs, Hc, Hq.
Qed.

(** ** The stored intervals *)

Lemma Forall_filter_keep {A : Type} (P Q : A → Prop)
    `{!∀ x, Decision (Q x)} (l : list A) :
  Forall P l → Forall P (filter Q l).
Proof.
  rewrite !Forall_forall. intros HP x Hx.
  apply list_elem_of_filter in Hx as [_ Hx]. by apply HP.
Qed.

Lemma number_rows_interval (next : Z) (rows : list PermitCacheItem.t) :
  Forall (λ c, PermitCacheItem.start_time c < PermitCacheItem.end_time c) rows →
  Forall (λ c, PermitCacheItem.start_time c < PermitCacheItem.end_time c)
         (number_rows next rows).
Proof.
  intros H. revert next. induction H as [|row rest Hrow _ IH]; intros next; simpl.
  - constructor.
  - constructor; [done | apply IH].
Qed.

Lemma make_cache_items_intervals (self : Permit.t) :
  Forall (λ c, PermitCacheItem.start_time c < PermitCacheItem.end_time c)
         (_make_cache_items self).
Proof. apply Forall_forall. intros row. apply make_cache_items_interval. Qed.

Lemma same_rows_cache_ok (db db' : DB) :
  same_rows db db' → cache_ok db → cache_ok db'.
Proof. unfold cache_ok. by intros (_ & _ & ->). Qed.

Lemma save_cache_ok (self : Permit.t) (db : DB) :
  cache_ok db → cache_ok (snd (save self db)).
Proof.
  intros Hok. destruct (save self db) as [[self1|e] db1] eqn:Hsave; simpl.
  - apply save_Ok in Hsave as [_ Hblock].
    apply save_block_Ok in Hblock as (db_mid & _ & ->).
    unfold cache_ok. simpl. apply Forall_app. split.
    + by apply Forall_filter_keep.
    + apply number_rows_interval, make_cache_items_intervals.
  - apply save_Raise in Hsave. by eapply same_rows_cache_ok.
Qed.

Lemma bulk_create_cache_ok (permits : list Permit.t) (db : DB) :
  cache_ok db → cache_ok (snd (PermitQuerySet.bulk_create permits db)).
Proof.
  intros Hok.
  destruct (PermitQuerySet.bulk_create permits db) as [[created|e] db1]
    eqn:Hbulk; simpl.
  - apply atomic_Ok, bulk_create_block_Ok in Hbulk as (_ & Hc & _).
    unfold cache_ok. rewrite Hc. apply Forall_app. split; [done|].
    apply number_rows_interval, Forall_bind, Forall_forall.
    intros p _. apply make_cache_items_intervals.
  - apply atomic_Raise in Hbulk. by eapply same_rows_cache_ok.
Qed.

Lemma series_ops_cache_table (op : Op) (db : DB) :
  match op with OpSave _ | OpBulkCreate _ => False | _ => True end →
  cache_table (run_op op db) = cache_table db.
Proof.
  destruct op as [| |act now|obj now|pk now|now ra]; try done; intros _; simpl.
  - unfold PermitSeries_create, nextval_series. unfold_M. simpl.
    by case_decide.
  - unfold activate, atomic. unfold_M. simpl.
    repeat (case_decide; simpl); done.
  - unfold prune, delete_series. unfold_M. simpl.
    repeat (case_decide; simpl); done.
Qed.

Lemma run_op_cache_ok (op : Op) (db : DB) :
  cache_ok db → cache_ok (run_op op db).
Proof.
  intros Hok. destruct op as [self|permits| | | |] eqn:Hop.
  - by apply save_cache_ok.
  - by apply bulk_create_cache_ok.
  - unfold cache_ok. by rewrite (series_ops_cache_table (OpSeriesCreate _ _)).
  - unfold cache_ok. by rewrite (series_ops_cache_table (OpSeriesSave _ _)).
  - unfold cache_ok. by rewrite (series_ops_cache_table (OpActivate _ _)).
  - unfold cache_ok. by rewrite (series_ops_cache_table (OpPrune _ _)).
Qed.

Lemma run_cache_ok (ops : list Op) (db : DB) :
  cache_ok db → cache_ok (run ops db).
Proof.
  revert db. induction ops as [|op ops IH]; intros db Hok; simpl; [done|].
  by apply IH, run_op_cache_ok.
Qed.

(** C9.  Every stored cache row has [start_time < end_time]: the generator
    only yields such rows, every operation on the store keeps the
    invariant, and so every state reached from the empty store has it. *)
Theorem C9_stored_intervals_are_nonempty :
  (∀ self,
     Forall (λ c, PermitCacheItem.start_time c < PermitCacheItem.end_time c)
            (_make_cache_items self))
  ∧ (∀ op db, cache_ok db → cache_ok (run_op op db))
  ∧ (∀ ops, cache_ok (run ops empty_db)).
Proof.
  split; [apply make_cache_items_intervals|].
  split; [apply run_op_cache_ok|].
  intros ops. apply run_cache_ok. constructor.
Qed.

(** ** Queries *)

Lemma NoDup_fmap_eq {A B : Type} (f : A → B) (l : list A) (x y : A) :
  NoDup (f <$> l) → x ∈ l → y ∈ l → f x = f y → x = y.
Proof.
  induction l as [|a l IH]; simpl; intros Hnd Hx Hy Hf.
  - by apply elem_of_nil in Hx.
  - apply NoDup_cons in Hnd as [Ha Hnd].
    apply elem_of_cons in Hx as [->|Hx]; apply elem_of_cons in Hy as [->|Hy].
    + done.
    + exfalso. apply Ha. rewrite Hf. by apply list_elem_of_fmap_2.
    + exfalso. apply Ha. rewrite <- Hf. by apply list_elem_of_fmap_2.
    + by apply IH.
Qed.

Lemma elem_of_filter_cache_items__in (db : DB) (self : list Permit.t)
    (cache_items : list PermitCacheItem.t) (p : Permit.t) :
  p ∈ PermitQuerySet.filter_cache_items__in db self cache_items ↔
  p ∈ self ∧ is_Some (Permit.id p)
  ∧ ∃ c, c ∈ cache_table db
         ∧ PermitCacheItem.permit c = Permit.id p
         ∧ PermitCacheItem.id c ∈ PermitCacheItem.id <$> cache_items.
Proof.
  unfold PermitQuerySet.filter_cache_items__in. rewrite list_elem_of_bind. split.
  - intros (q & Hp & Hq). apply list_elem_of_bind in Hp as (c & Hp & Hc).
    case_decide as Hjoin; [|by apply elem_of_nil in Hp].
    apply list_elem_of_singleton in Hp as ->.
    destruct Hjoin as (Hsome & Hfk & Hin). eauto 10.
  - intros (Hp & Hsome & c & Hc & Hfk & Hin). exists p. split; [|done].
    apply list_elem_of_bind. exists c. split; [|done].
    rewrite decide_True by done. by apply list_elem_of_singleton.
Qed.

(** Under the primary key of the cache table, a row is among the rows
    selected by a filter exactly when it passes the filter. *)
Lemma id_elem_of_filter (P : PermitCacheItem.t → Prop)
    `{!∀ c, Decision (P c)} (table : list PermitCacheItem.t)
    (c : PermitCacheItem.t) :
  NoDup (PermitCacheItem.id <$> table) → c ∈ table →
  PermitCacheItem.id c ∈ PermitCacheItem.id <$> filter P table ↔ P c.
Proof.
  intros Hnd Hc. rewrite list_elem_of_fmap. split.
  - intros (c' & Hid & Hc'). apply list_elem_of_filter in Hc' as [HP Hc'].
    by rewrite (NoDup_fmap_eq PermitCacheItem.id table c c').
  - intros HP. exists c. split; [done|]. by apply list_elem_of_filter.
Qed.

Lemma elem_of_query (P : PermitCacheItem.t → Prop)
    `{!∀ c, Decision (P c)} (db : DB) (self : list Permit.t) (p : Permit.t) :
  NoDup (PermitCacheItem.id <$> cache_table db) →
  p ∈ PermitQuerySet.distinct
        (PermitQuerySet.filter_cache_items__in db self
           (filter P (cache_table db))) ↔
  p ∈ self ∧ is_Some (Permit.id p)
  ∧ ∃ c, c ∈ cache_table db ∧ PermitCacheItem.permit c = Permit.id p ∧ P c.
Proof.
  intros Hnd. unfold PermitQuerySet.distinct.
  rewrite elem_of_remove_dups, elem_of_filter_cache_items__in.
  split; intros (Hp & Hsome & c & Hc & Hfk & HP);
    (split; [done|]; split; [done|]; exists c; split; [done|]; split; [done|]).
  - by apply (id_elem_of_filter P (cache_table db)).
  - by apply (id_elem_of_filter P (cache_table db)).
Qed.

(** C2.  [by_time(t)] returns exactly the permits of the query set that
    own at least one cache row with [start_time <= t <= end_time], and
    each of them once, however many of its rows contain [t]. *)
Theorem C2_by_time_returns_permits_valid_at (db : DB) (self : list Permit.t)
    (timestamp : Z) :
  NoDup (PermitCacheItem.id <$> cache_table db) →
  (∀ p, p ∈ PermitQuerySet.by_time db self timestamp ↔
        p ∈ self ∧ is_Some (Permit.id p)
        ∧ ∃ c, c ∈ cache_table db
               ∧ PermitCacheItem.permit c = Permit.id p
               ∧ PermitCacheItem.start_time c <= timestamp
                 <= PermitCacheItem.end_time c)
  ∧ NoDup (PermitQuerySet.by_time db self timestamp).
Proof.
  intros Hnd. split.
  - intros p. unfold PermitQuerySet.by_time, PermitCacheItemQuerySet.by_time.
    rewrite elem_of_query by done.
    split; intros (Hp & Hsome & c & Hc & Hfk & Hlo & Hhi);
      (split; [done|]; split; [done|]; exists c; repeat split; [done ..| |]);
      lia.
  - apply NoDup_remove_dups.
Qed.

(** ** Registration numbers in queries *)







(** ** When a save succeeds *)

Lemma clean_fields_nil (self : Permit.t) (db : DB) :
  clean_fields self db = [] ↔
  series_exists (Permit.series self) db
  ∧ clean_external_id (Permit.external_id self)
  ∧ clean_list_field true subjects_schema (Permit.subjects self)
  ∧ clean_list_field true areas_schema (Permit.areas self).
Proof.
  unfold clean_fields. repeat case_decide; simpl; intuition congruence.
Qed.

Lemma validate_unique_nil (self : Permit.t) (db : DB) :
  validate_unique self db [] = [] ↔
  ¬ Exists (unique_together_conflict self)
      (match Permit.id self with
       | None => permit_table db
       | Some _ => other_rows self (permit_table db)
       end).
Proof.
  unfold validate_unique. rewrite decide_False.
  - case_decide; naive_solver.
  - intros [H|H]; by apply elem_of_nil in H.
Qed.

Lemma insert_permit_succeeds (row : Permit.t) (db : DB) :
  Permit.id row ∉ Permit.id <$> permit_table db →
  ¬ Exists (unique_together_conflict row) (permit_table db) →
  series_exists (Permit.series row) db →
  insert_permit row db
  = (Ok tt, set_permit_table (permit_table db ++ [row]) db).
Proof.
  intros Hpk Hunique Hfk. unfold insert_permit. unfold_M.
  by rewrite decide_False, decide_False, decide_True.
Qed.

Lemma update_permit_succeeds (row : Permit.t) (db : DB) :
  ¬ Exists (unique_together_conflict row) (other_rows row (permit_table db)) →
  series_exists (Permit.series row) db →
  ∃ db', update_permit row db = (Ok tt, db').
Proof.
  intros Hunique Hfk. unfold update_permit. unfold_M.
  rewrite decide_False, decide_True by done. by eexists.
Qed.

Lemma other_rows_all (row : Permit.t) (table : list Permit.t) :
  Permit.id row ∉ Permit.id <$> table → other_rows row table = table.
Proof.
  unfold other_rows. induction table as [|q table IH]; [done|].
  rewrite fmap_cons, not_elem_of_cons. intros [Hq Hrest].
  rewrite filter_cons_True by done. by rewrite IH.
Qed.

Lemma Model_save_succeeds (self : Permit.t) (db : DB) :
  full_clean self db = (Ok tt, db) →
  (Permit.id self = None →
   Some (permit_seq db) ∉ Permit.id <$> permit_table db) →
  ∃ self1 db', Model_save self db = (Ok self1, db').
Proof.
  intros Hclean Hseq. apply full_clean_Ok in Hclean as (_ & Hfields & Hunique).
  apply clean_fields_nil in Hfields as (Hfk & _).
  apply validate_unique_nil in Hunique.
  unfold Model_save, Model_insert. destruct (Permit.id self) as [pk|] eqn:Hid.
  - unfold mbind, M_bind at 1. unfold get at 1. case_decide as Hrow.
    + destruct (update_permit_succeeds self db) as [db' Hup]; [done ..|].
      unfold mbind, M_bind. rewrite Hup. by eexists _, _.
    + unfold mbind, M_bind. rewrite insert_permit_succeeds; [by eexists _, _| | |done].
      * by rewrite Hid.
      * rewrite other_rows_all in Hunique; [done | by rewrite Hid].
  - unfold mbind, M_bind at 1. unfold nextval_permit at 1.
    unfold mbind, M_bind.
    rewrite insert_permit_succeeds; [by eexists _, _ | | |done].
    + simpl. by apply Hseq.
    + done.
Qed.

Lemma insert_cache_item_succeeds (row : PermitCacheItem.t) (db : DB) :
  permit_exists (PermitCacheItem.permit row) db → cache_seq_ok db →
  insert_cache_item row db
  = (Ok tt,
     {| series_table := series_table db; series_seq := series_seq db;
        permit_table := permit_table db; permit_seq := permit_seq db;
        cache_table := cache_table db ++ [with_cache_id row (cache_seq db)];
        cache_seq := cache_seq db + 1 |}).
Proof.
  intros Hfk Hseq. unfold insert_cache_item, nextval_cache. unfold_M. simpl.
  rewrite decide_True by done. rewrite decide_False; [done|].
  intros Hin. apply list_elem_of_fmap in Hin as (c & Hid & Hc).
  unfold cache_seq_ok in Hseq. rewrite Forall_forall in Hseq.
  destruct (Hseq c Hc) as (pk & Hpk & Hlt). rewrite Hpk in Hid.
  injection Hid as Heq. lia.
Qed.

Lemma cache_bulk_create_succeeds (cache_items : list PermitCacheItem.t)
    (db : DB) :
  Forall (λ row, permit_exists (PermitCacheItem.permit row) db) cache_items →
  cache_seq_ok db →
  ∃ db', cache_bulk_create cache_items db = (Ok tt, db').
Proof.
  revert db. induction cache_items as [|row rest IH]; intros db Hfk Hseq; simpl.
  - by eexists.
  - apply Forall_cons in Hfk as [Hrow Hrest].
    unfold mbind, M_bind. rewrite insert_cache_item_succeeds by done.
    apply IH; [done|].
    unfold cache_seq_ok in *. simpl. apply Forall_app. split.
    + eapply Forall_impl; [exact Hseq|]. simpl.
      intros c (pk & Hpk & Hlt). exists pk. split; [done | lia].
    + apply Forall_singleton. exists (cache_seq db). split; [done | lia].
Qed.

Lemma make_cache_items_blank (self : Permit.t) :
  Permit.subjects self = [] ∨ Permit.areas self = [] →
  _make_cache_items self = [].
Proof.
  unfold _make_cache_items. intros [-> | ->]; [|done].
  induction (Permit.areas self) as [|area areas IH]; [done|].
  by rewrite bind_cons, IH.
Qed.

Lemma number_rows_permit (next : Z) (rows : list PermitCacheItem.t)
    (pk : option Z) :
  Forall (λ c, PermitCacheItem.permit c = pk) rows →
  Forall (λ c, PermitCacheItem.permit c = pk) (number_rows next rows).
Proof.
  intros H. revert next. induction H as [|row rest Hrow _ IH]; intros next; simpl.
  - constructor.
  - constructor; [done | apply IH].
Qed.

Lemma number_rows_tuple (next : Z) (rows : list PermitCacheItem.t) :
  row_tuple <$> number_rows next rows = row_tuple <$> rows.
Proof.
  revert next. induction rows as [|row rest IH]; intros next; simpl; [done|].
  by rewrite IH.
Qed.

Lemma filter_all {A : Type} (P : A → Prop) `{!∀ x, Decision (P x)}
    (l : list A) :
  Forall P l → filter P l = l.
Proof.
  induction 1 as [|x l Hx _ IH]; [done|].
  by rewrite filter_cons_True, IH.
Qed.

Lemma filter_none {A : Type} (P : A → Prop) `{!∀ x, Decision (P x)}
    (l : list A) :
  Forall (λ x, ¬ P x) l → filter P l = [].
Proof.
  induction 1 as [|x l Hx _ IH]; [done|].
  by rewrite filter_cons_False.
Qed.

(** The cache rows of a permit right after a successful [save]: the rows
    of the generator, numbered from the sequence. *)
Lemma save_cache_rows (self self1 : Permit.t) (db db1 : DB) :
  save self db = (Ok self1, db1) →
  cache_rows_of self1 db1
  = number_rows (cache_seq db) (_make_cache_items self1).
Proof.
  intros Hsave. apply save_Ok in Hsave as [_ Hblock].
  apply save_block_Ok in Hblock as (db_mid & _ & ->).
  unfold cache_rows_of. simpl. rewrite filter_app.
  rewrite filter_none, filter_all; [done| |].
  - apply number_rows_permit, Forall_forall.
    intros row. apply make_cache_items_permit.
  - apply Forall_forall. intros c Hc.
    by apply list_elem_of_filter in Hc as [Hne _].
Qed.

Lemma save_block_succeeds (self self1 : Permit.t) (db db_mid db1 : DB) :
  Model_save self db = (Ok self1, db_mid) →
  cache_bulk_create (_make_cache_items self1)
    (set_cache_table
       (filter (λ c, PermitCacheItem.permit c ≠ Permit.id self1)
               (cache_table db_mid)) db_mid)
  = (Ok tt, db1) →
  save_block self db = (Ok self1, db1).
Proof.
  intros Hsave Hbulk. unfold save_block. apply bind_Ok.
  exists self1, db_mid. split; [done|]. apply bind_Ok.
  eexists tt, _. split; [apply delete_cache_items_eq|]. apply bind_Ok.
  by exists tt, db1.
Qed.

Lemma save_of_block (self self1 : Permit.t) (db db1 : DB) :
  full_clean self db = (Ok tt, db) →
  save_block self db = (Ok self1, db1) →
  save self db = (Ok self1, db1).
Proof.
  intros Hclean Hblock. unfold save. apply bind_Ok.
  exists tt, db. split; [done|]. by apply atomic_Ok.
Qed.

Lemma query_needs_cache_row (P : PermitCacheItem.t → Prop)
    `{!∀ c, Decision (P c)} (db : DB) (self : list Permit.t) (p : Permit.t) :
  cache_rows_of p db = [] →
  p ∉ PermitQuerySet.distinct
        (PermitQuerySet.filter_cache_items__in db self
           (filter P (cache_table db))).
Proof.
  intros Hrows Hp. unfold PermitQuerySet.distinct in Hp.
  apply elem_of_remove_dups, elem_of_filter_cache_items__in in Hp
    as (_ & _ & c & Hc & Hfk & _).
  assert (c ∈ cache_rows_of p db) as Hin by by apply list_elem_of_filter.
  rewrite Hrows in Hin. by apply elem_of_nil in Hin.
Qed.

(** C10.  A permit whose [subjects] or whose [areas] is empty: the empty
    list is accepted by its field, which is declared [blank=True]; when the
    rest of the permit validates, [save] succeeds, the permit it returns is
    a row of the permit table, with a primary key and the lists it was
    given, and it is left without any cache row, so that no query by time,
    by subject or by area returns it, whatever the argument and the query
    set. *)
Theorem C10_blank_lists_save_without_cache_rows (self : Permit.t) (db : DB) :
  Permit.subjects self = [] ∨ Permit.areas self = [] →
  (Permit.subjects self = [] → "subjects" ∉ clean_fields self db)
  ∧ (Permit.areas self = [] → "areas" ∉ clean_fields self db)
  ∧ (full_clean self db = (Ok tt, db) →
     (Permit.id self = None →
      Some (permit_seq db) ∉ Permit.id <$> permit_table db) →
     ∃ self1 db1,
       save self db = (Ok self1, db1)
       ∧ self1 ∈ permit_table db1
       ∧ is_Some (Permit.id self1)
       ∧ Permit.subjects self1 = Permit.subjects self
       ∧ Permit.areas self1 = Permit.areas self
       ∧ cache_rows_of self1 db1 = []
       ∧ ∀ qs timestamp registration_number area_identifier,
           (self1 ∉ PermitQuerySet.by_time db1 qs timestamp)
           ∧ (self1 ∉ PermitQuerySet.by_subject db1 qs registration_number)
           ∧ (self1 ∉ PermitQuerySet.by_area db1 qs area_identifier)).
Proof.
  intros Hblank. split; [|split].
  - intros Hs. unfold clean_fields. rewrite Hs.
    rewrite (decide_True (P := clean_list_field true subjects_schema [])) by done.
    repeat case_decide; simpl; intros Hin;
      repeat (apply elem_of_cons in Hin as [Hin|Hin]; [done|]);
      by apply elem_of_nil in Hin.
  - intros Ha. unfold clean_fields. rewrite Ha.
    rewrite (decide_True (P := clean_list_field true areas_schema [])) by done.
    repeat case_decide; simpl; intros Hin;
      repeat (apply elem_of_cons in Hin as [Hin|Hin]; [done|]);
      by apply elem_of_nil in Hin.
  - intros Hclean Hseq.
    destruct (Model_save_succeeds self db Hclean Hseq) as (self1 & db_mid & Hsave).
    pose proof (Model_save_Ok _ _ _ _ Hsave) as Hsaved.
    assert (_make_cache_items self1 = []) as Hnone.
    { apply make_cache_items_blank.
      rewrite (saved_subjects _ _ _ _ Hsaved), (saved_areas _ _ _ _ Hsaved).
      exact Hblank. }
    eexists self1, _. split; [|split; [|split; [|split; [|split; [|split]]]]].
    + apply save_of_block; [done|].
      eapply save_block_succeeds; [done|]. rewrite Hnone. reflexivity.
    + simpl. apply (saved_row _ _ _ _ Hsaved).
    + apply (saved_id _ _ _ _ Hsaved).
    + apply (saved_subjects _ _ _ _ Hsaved).
    + apply (saved_areas _ _ _ _ Hsaved).
    + unfold cache_rows_of. simpl. apply filter_none, Forall_forall.
      intros c Hc. by apply list_elem_of_filter in Hc as [Hne _].
    + assert (cache_rows_of self1
                (set_cache_table
                   (filter (λ c, PermitCacheItem.permit c ≠ Permit.id self1)
                           (cache_table db_mid)) db_mid) = []) as Hrows.
      { unfold cache_rows_of. simpl. apply filter_none, Forall_forall.
        intros c Hc. by apply list_elem_of_filter in Hc as [Hne _]. }
      intros qs timestamp registration_number area_identifier.
      repeat split; by apply query_needs_cache_row.
Qed.

(** ** Saving again *)

Lemma number_rows_seq (next : Z) (rows : list PermitCacheItem.t) :
  Forall (λ c, ∃ pk, PermitCacheItem.id c = Some pk
                     ∧ pk < next + Z.of_nat (length rows))
         (number_rows next rows).
Proof.
  revert next. induction rows as [|row rest IH]; intros next; simpl.
  - constructor.
  - constructor.
    + exists next. split; [done | lia].
    + eapply Forall_impl; [apply IH|]. simpl.
      intros c (pk & Hpk & Hlt). exists pk. split; [done | lia].
Qed.

Lemma save_cache_seq_ok (self self1 : Permit.t) (db db1 : DB) :
  cache_seq_ok db → save self db = (Ok self1, db1) → cache_seq_ok db1.
Proof.
  intros Hseq Hsave. apply save_Ok in Hsave as [_ Hblock].
  apply save_block_Ok in Hblock as (db_mid & _ & ->).
  unfold cache_seq_ok in *. simpl. apply Forall_app. split.
  - apply Forall_filter_keep. eapply Forall_impl; [exact Hseq|]. simpl.
    intros c (pk & Hpk & Hlt). exists pk. split; [done | lia].
  - apply number_rows_seq.
Qed.

Lemma save_succeeds (self : Permit.t) (db : DB) :
  full_clean self db = (Ok tt, db) →
  (Permit.id self = None →
   Some (permit_seq db) ∉ Permit.id <$> permit_table db) →
  cache_seq_ok db →
  ∃ self1 db1, save self db = (Ok self1, db1).
Proof.
  intros Hclean Hfresh Hseq.
  destruct (Model_save_succeeds self db Hclean Hfresh) as (self1 & db_mid & Hsave).
  pose proof (Model_save_Ok _ _ _ _ Hsave) as Hsaved.
  destruct (cache_bulk_create_succeeds (_make_cache_items self1)
              (set_cache_table
                 (filter (λ c, PermitCacheItem.permit c ≠ Permit.id self1)
                         (cache_table db_mid)) db_mid)) as [db1 Hbulk].
  - apply Forall_forall. intros row Hrow.
    rewrite (make_cache_items_permit _ _ Hrow). split.
    + apply (saved_id _ _ _ _ Hsaved).
    + simpl. apply list_elem_of_fmap_2, (saved_row _ _ _ _ Hsaved).
  - unfold cache_seq_ok in *. simpl.
    rewrite (saved_cache_table _ _ _ _ Hsaved), (saved_cache_seq _ _ _ _ Hsaved).
    by apply Forall_filter_keep.
  - exists self1, db1. apply save_of_block; [done|].
    by eapply save_block_succeeds.
Qed.

Lemma unique_together_conflict_saved (self self1 : Permit.t) (db db' : DB)
    (q : Permit.t) :
  saved self self1 db db' →
  unique_together_conflict self1 q ↔ unique_together_conflict self q.
Proof.
  intros Hsaved. unfold unique_together_conflict.
  by rewrite (saved_series _ _ _ _ Hsaved), (saved_external_id _ _ _ _ Hsaved).
Qed.

(** Validation passes again after a successful [save]. *)
Lemma full_clean_again (self self1 : Permit.t) (db db1 : DB) :
  save self db = (Ok self1, db1) → full_clean self1 db1 = (Ok tt, db1).
Proof.
  intros Hsave. apply save_Ok in Hsave as [Hclean Hblock].
  apply save_block_Ok in Hblock as (db_mid & Hsave & ->).
  pose proof (Model_save_Ok _ _ _ _ Hsave) as Hsaved.
  apply full_clean_Ok in Hclean as (_ & Hfields & Hunique).
  apply clean_fields_nil in Hfields as (Hfk & Hext & Hsubjects & Hareas).
  apply validate_unique_nil in Hunique.
  apply full_clean_Ok. split; [done|]. split.
  - apply clean_fields_nil. unfold series_exists in *. simpl.
    rewrite (saved_series _ _ _ _ Hsaved), (saved_external_id _ _ _ _ Hsaved),
      (saved_subjects _ _ _ _ Hsaved), (saved_areas _ _ _ _ Hsaved),
      (saved_series_table _ _ _ _ Hsaved).
    done.
  - apply validate_unique_nil. simpl.
    destruct (saved_id _ _ _ _ Hsaved) as [pk Hpk]. rewrite Hpk.
    rewrite (saved_others _ _ _ _ Hsaved). intros Hconflict. apply Hunique.
    destruct (Permit.id self) as [pk0|] eqn:Hid.
    + assert (self1 = self) as -> by by apply (saved_same_id _ _ _ _ Hsaved).
      done.
    + apply Exists_exists in Hconflict as (q & Hq & Hconflict).
      apply Exists_exists. exists q. split.
      * by apply list_elem_of_filter in Hq as [_ Hq].
      * by apply (unique_together_conflict_saved _ _ _ _ q Hsaved).
Qed.

(** C8.  Saving a permit again with unchanged subjects and areas: the
    second [save] succeeds and the permit's cache rows read, as
    (registration_number, area_identifier, start_time, end_time) tuples, as
    they did before it; only the primary keys of the rows are new. *)
Theorem C8_resave_keeps_cache_rows (self self1 : Permit.t) (db db1 : DB) :
  cache_seq_ok db →
  save self db = (Ok self1, db1) →
  ∃ db2,
    save self1 db1 = (Ok self1, db2)
    ∧ row_tuple <$> cache_rows_of self1 db2
      = row_tuple <$> cache_rows_of self1 db1.
Proof.
  intros Hseq Hsave.
  pose proof (full_clean_again _ _ _ _ Hsave) as Hclean.
  pose proof (save_cache_seq_ok _ _ _ _ Hseq Hsave) as Hseq1.
  assert (is_Some (Permit.id self1)) as Hsome.
  { apply save_Ok in Hsave as [_ Hblock].
    apply save_block_Ok in Hblock as (db_mid & Hms & _).
    apply (saved_id _ _ _ _ (Model_save_Ok _ _ _ _ Hms)). }
  destruct (save_succeeds self1 db1) as (self2 & db2 & Hsave2); [done| |done|].
  { intros Hnone. rewrite Hnone in Hsome. by destruct Hsome. }
  assert (self2 = self1) as ->.
  { pose proof Hsave2 as H. apply save_Ok in H as [_ Hblock].
    apply save_block_Ok in Hblock as (db_mid & Hms & _).
    by apply (saved_same_id _ _ _ _ (Model_save_Ok _ _ _ _ Hms)). }
  exists db2. split; [done|].
  rewrite (save_cache_rows _ _ _ _ Hsave), (save_cache_rows _ _ _ _ Hsave2).
  by rewrite !number_rows_tuple.
Qed.

(** ** Rejected writes *)

Lemma invalid_entry_clean_fields (self : Permit.t) (db : DB) :
  invalid_entry self → clean_fields self db ≠ [].
Proof.
  intros Hinvalid Hnil.
  apply clean_fields_nil in Hnil as (_ & _ & Hsubjects & Hareas).
  destruct Hinvalid as [Hbad | Hbad];
    apply Exists_exists in Hbad as (item & Hitem & Hbad).
  - destruct (Permit.subjects self) as [|i items]; [by apply elem_of_nil in Hitem|].
    simpl in Hsubjects. unfold DictListValidator in Hsubjects.
    rewrite Forall_forall in Hsubjects. by apply Hbad, Hsubjects.
  - destruct (Permit.areas self) as [|i items]; [by apply elem_of_nil in Hitem|].
    simpl in Hareas. unfold DictListValidator in Hareas.
    rewrite Forall_forall in Hareas. by apply Hbad, Hareas.
Qed.

Lemma invalid_entry_full_clean (self : Permit.t) (db : DB) :
  invalid_entry self →
  ∃ fields, full_clean self db = (Raise (ValidationError fields), db).
Proof.
  intros Hinvalid.
  destruct (full_clean self db) as [[[]|e] db'] eqn:Hclean.
  - apply full_clean_Ok in Hclean as (_ & Hfields & _).
    by apply invalid_entry_clean_fields in Hfields.
  - apply full_clean_Raise in Hclean as (-> & fields & ->). by exists fields.
Qed.

Lemma invalid_entry_created (permits created : list Permit.t) :
  Forall2 (λ p q, Permit.subjects q = Permit.subjects p
                  ∧ Permit.areas q = Permit.areas p
                  ∧ is_Some (Permit.id q)) permits created →
  Exists invalid_entry permits → Exists invalid_entry created.
Proof.
  induction 1 as [|p q permits created (Hs & Ha & _) _ IH]; intros Hbad.
  - by apply Exists_nil in Hbad.
  - apply Exists_cons in Hbad as [Hbad | Hbad].
    + apply Exists_cons_hd. unfold invalid_entry in *. by rewrite Hs, Ha.
    + by apply Exists_cons_tl, IH.
Qed.

(** C4, as the code has it.  A write with a subject or area entry that
    fails the schema is rejected, and a rejected write leaves the rows of
    every table as they were.  [save] validates before its transaction
    begins, so that it returns in the very state it was called in;
    [bulk_create] is rejected as a whole by the rollback of its
    transaction. *)
Theorem C4_rejected_writes_leave_the_store (db : DB) :
  (∀ self,
     invalid_entry self →
     ∃ fields, save self db = (Raise (ValidationError fields), db))
  ∧ (∀ permits,
       Exists invalid_entry permits →
       ∃ e db', PermitQuerySet.bulk_create permits db = (Raise e, db')
                ∧ same_rows db db')
  ∧ (∀ self e db', save self db = (Raise e, db') → same_rows db db')
  ∧ (∀ permits e db',
       PermitQuerySet.bulk_create permits db = (Raise e, db') →
       same_rows db db').
Proof.
  split; [|split; [|split]].
  - intros self Hinvalid.
    destruct (invalid_entry_full_clean self db Hinvalid) as [fields Hclean].
    exists fields. unfold save, mbind, M_bind. by rewrite Hclean.
  - intros permits Hinvalid.
    destruct (PermitQuerySet.bulk_create permits db) as [[created|e] db']
      eqn:Hbulk.
    + exfalso. unfold PermitQuerySet.bulk_create in Hbulk.
      rewrite atomic_Ok in Hbulk.
      unfold PermitQuerySet.bulk_create_block in Hbulk.
      apply bind_Ok in Hbulk as (created' & db1 & Hins & H).
      apply bind_Ok in H as (items & db2 & Hcollect & _).
      apply QuerySet_bulk_create_Ok in Hins as (Hall & _).
      apply collect_cache_items_Ok in Hcollect as (_ & _ & Hclean).
      apply (invalid_entry_created _ _ Hall) in Hinvalid.
      apply Exists_exists in Hinvalid as (q & Hq & Hbad).
      rewrite Forall_forall in Hclean. specialize (Hclean q Hq).
      apply full_clean_Ok in Hclean as (_ & Hfields & _).
      by apply invalid_entry_clean_fields in Hfields.
    + exists e, db'. split; [done|]. by apply atomic_Raise in Hbulk.
  - intros self e db'. apply save_Raise.
  - intros permits e db'. apply atomic_Raise.
Qed.

(** ** Permit series *)

Lemma delete_series_Ok (rows : list PermitSeries.t) (db db' : DB) (n : Z) :
  delete_series rows db = (Ok n, db') →
  db' = set_series_table
          (filter (λ s, PermitSeries.id s ∉ PermitSeries.id <$> rows)
                  (series_table db)) db.
Proof.
  unfold delete_series. unfold_M. case_decide; [done|]. by intros [= _ <-].
Qed.

Lemma delete_series_Raise (rows : list PermitSeries.t) (db db' : DB)
    (e : Exception) :
  delete_series rows db = (Raise e, db') → db' = db.
Proof.
  unfold delete_series. unfold_M. case_decide; [|done]. by intros [= _ <-].
Qed.


Lemma set_active_flags_id (pk now : Z) (s : PermitSeries.t) :
  PermitSeries.id (set_active_flags pk now s) = PermitSeries.id s.
Proof. unfold set_active_flags. by case_decide. Qed.

Lemma set_active_flags_created_at (pk now : Z) (s : PermitSeries.t) :
  PermitSeries.created_at (set_active_flags pk now s)
  = PermitSeries.created_at s.
Proof. unfold set_active_flags. by case_decide. Qed.

Lemma set_active_flags_active (pk now : Z) (s : PermitSeries.t) :
  PermitSeries.active (set_active_flags pk now s) = true ↔
  PermitSeries.id s = pk.
Proof. unfold set_active_flags. by case_decide. Qed.

Lemma activate_Ok (pk now : Z) (db db' : DB) :
  activate pk now db = (Ok tt, db') →
  series_exists pk db
  ∧ db' = set_series_table (set_active_flags pk now <$> series_table db) db.
Proof.
  unfold activate. rewrite atomic_Ok. unfold_M.
  case_decide as Hpk; [|done]. by intros [= <-].
Qed.

Lemma activate_succeeds (pk now : Z) (db : DB) :
  series_exists pk db →
  activate pk now db
  = (Ok tt,
     set_series_table (set_active_flags pk now <$> series_table db) db).
Proof. intros Hpk. unfold activate, atomic. unfold_M. by rewrite decide_True. Qed.

Lemma activate_refused (pk now : Z) (db : DB) :
  ¬ series_exists pk db →
  series_table (snd (activate pk now db)) = series_table db.
Proof. intros Hpk. unfold activate, atomic. unfold_M. by rewrite decide_False. Qed.

Lemma NoDup_fmap_filter {A B : Type} (f : A → B) (P : A → Prop)
    `{!∀ x, Decision (P x)} (l : list A) :
  NoDup (f <$> l) → NoDup (f <$> filter P l).
Proof.
  intros Hnd. eapply sublist_NoDup; [exact Hnd|].
  apply fmap_sublist, sublist_filter.
Qed.

Lemma flagged_ids (pk now : Z) (table : list PermitSeries.t) :
  PermitSeries.id <$> (set_active_flags pk now <$> table)
  = PermitSeries.id <$> table.
Proof.
  rewrite <- list_fmap_compose. apply list_fmap_ext.
  intros i s _. apply set_active_flags_id.
Qed.

Lemma length_filter_key (pk : Z) (table : list PermitSeries.t) :
  NoDup (PermitSeries.id <$> table) → pk ∈ PermitSeries.id <$> table →
  length (filter (λ s, PermitSeries.id s = pk) table) = 1%nat.
Proof.
  induction table as [|s table IH]; simpl; intros Hnd Hin.
  - by apply elem_of_nil in Hin.
  - apply NoDup_cons in Hnd as [Hs Hnd].
    destruct (decide (PermitSeries.id s = pk)) as [Heq|Hne].
    + rewrite filter_cons_True by done. simpl. f_equal.
      rewrite filter_none; [done|]. apply Forall_forall. intros r Hr Hid.
      apply Hs. rewrite Heq, <- Hid. by apply list_elem_of_fmap_2.
    + rewrite filter_cons_False by done. apply IH; [done|].
      apply elem_of_cons in Hin as [Hin|Hin]; [congruence | done].
Qed.

Lemma filter_ext_in {A : Type} (P Q : A → Prop) `{!∀ x, Decision (P x)}
    `{!∀ x, Decision (Q x)} (l : list A) :
  (∀ x, x ∈ l → P x ↔ Q x) → filter P l = filter Q l.
Proof.
  induction l as [|x l IH]; intros Hext; [done|].
  rewrite !filter_cons.
  rewrite IH by (intros y Hy; apply Hext; by right).
  destruct (decide (P x)) as [HP|HP]; destruct (decide (Q x)) as [HQ|HQ];
    try done; exfalso; apply (Hext x (list_elem_of_here _ _)) in HP || apply HP;
    try done; by apply (Hext x (list_elem_of_here _ _)).
Qed.

Lemma active_flagged (pk now : Z) (table : list PermitSeries.t) :
  NoDup (PermitSeries.id <$> table) → pk ∈ PermitSeries.id <$> table →
  length (PermitSeriesQuerySet.active (set_active_flags pk now <$> table))
  = 1%nat.
Proof.
  intros Hnd Hpk. unfold PermitSeriesQuerySet.active.
  rewrite (filter_ext_in _ (λ s, PermitSeries.id s = pk)).
  - apply length_filter_key; by rewrite flagged_ids.
  - intros s' Hs'. apply list_elem_of_fmap in Hs' as (s & -> & _).
    by rewrite set_active_flags_active, set_active_flags_id.
Qed.

(** The activation of the spec passes [test_series_get_activated]; with
    the sweep run in the same request and a retention of three days, be it
    after the flags are set or before, an endpoint passes both tests.  On
    a store whose active series is four days old the two differ: the
    sweep that comes after the flags takes the series that the activation
    has just made inactive, the sweep that comes before leaves it. *)
Example activate_passes_test_series_get_activated :
  test_series_get_activated activate.
Proof.
  exists (snd (activate 1 (test_now + 1)
                 (run test_series_get_activated_ops empty_db))).
  split; [vm_compute; reflexivity|]. split; [vm_compute; reflexivity|].
  exists {| PermitSeries.id := 2; PermitSeries.created_at := test_now;
            PermitSeries.modified_at := test_now;
            PermitSeries.active := false |}.
  split; [|done]. apply (bool_decide_unpack _). vm_compute. exact I.
Qed.


Example the_tests_leave_the_place_of_the_sweep_open :
  test_series_get_activated (activate_then_prune (3 * day))
  ∧ test_series_get_activated (prune_then_activate (3 * day))
  ∧ test_old_series_are_pruned (prune_then_activate (3 * day))
  ∧ PermitSeries.id
      <$> series_table
            (snd (activate_then_prune (3 * day) 2 (test_now + 1)
                    old_active_series_db))
    = [2]
  ∧ PermitSeries.id
      <$> series_table
            (snd (prune_then_activate (3 * day) 2 (test_now + 1)
                    old_active_series_db))
    = [1; 2].
Proof.
  split; [|split; [|split; [|split]]].
  - exists (snd (activate_then_prune (3 * day) 1 (test_now + 1)
                   (run test_series_get_activated_ops empty_db))).
    split; [vm_compute; reflexivity|]. split; [vm_compute; reflexivity|].
    exists {| PermitSeries.id := 2; PermitSeries.created_at := test_now;
              PermitSeries.modified_at := test_now;
              PermitSeries.active := false |}.
    split; [|done]. apply (bool_decide_unpack _). vm_compute. exact I.
  - exists (snd (prune_then_activate (3 * day) 1 (test_now + 1)
                   (run test_series_get_activated_ops empty_db))).
    split; [vm_compute; reflexivity|]. split; [vm_compute; reflexivity|].
    exists {| PermitSeries.id := 2; PermitSeries.created_at := test_now;
              PermitSeries.modified_at := test_now;
              PermitSeries.active := false |}.
    split; [|done]. apply (bool_decide_unpack _). vm_compute. exact I.
  - split; [reflexivity|].
    exists (snd (prune_then_activate (3 * day) 1 (test_now + 1)
                   test_old_series_are_pruned_db)).
    split; vm_compute; reflexivity.
  - vm_compute. reflexivity.
  - vm_compute. reflexivity.
Qed.



Lemma prune_Ok (now prunable_after : Z) (db db' : DB) (n : Z) :
  prune now prunable_after db = (Ok n, db') →
  series_table db' =
    filter (λ s, PermitSeries.id s
                 ∉ PermitSeries.id
                   <$> PermitSeriesQuerySet.prunable now prunable_after
                         (series_table db))
           (series_table db).
Proof.
  unfold prune. rewrite bind_Ok. intros (db0 & db1 & Hget & H).
  unfold get in Hget. injection Hget as <- <-.
  by apply delete_series_Ok in H as ->.
Qed.



(** * The scenarios and instances of the theorems *)

Example scenario_6_rows :
  _make_cache_items scenario_6
  = [ {| PermitCacheItem.id := None; PermitCacheItem.permit := Some 1;
         PermitCacheItem.registration_number := "ABC123";
         PermitCacheItem.area_identifier := "A1";
         PermitCacheItem.start_time := 4 * day;
         PermitCacheItem.end_time := 9 * day |} ].
Proof. vm_compute. reflexivity. Qed.

Example scenario_7_rows : _make_cache_items scenario_7 = [].
Proof. vm_compute. reflexivity. Qed.

(** Scenario 8 of the spec: S1 active, S2 inactive and created four days
    ago, retention of three days: the sweep removes S2 and leaves S1. *)
Example scenario_8_sweep :
  PermitSeries.id
    <$> series_table
          (run [ OpSeriesCreate true (test_now - 4 * day);
                 OpSeriesCreate false (test_now - 4 * day);
                 OpPrune test_now (3 * day) ] empty_db)
  = [1].
Proof. vm_compute. reflexivity. Qed.

(** The stored permit is found under any spelling of its vehicle, and not
    under another number. *)
Example by_subject_spellings :
  PermitQuerySet.by_subject one_permit_db (permit_table one_permit_db)
    "abc 123" = [with_id two_period_permit 1]
  ∧ PermitQuerySet.by_subject one_permit_db (permit_table one_permit_db)
      "ABC-124" = [].
Proof. vm_compute. done. Qed.

(** The join of [by_time] has one output row for each matching cache row,
    and [distinct] leaves one. *)
Example by_time_join_and_distinct :
  length (PermitQuerySet.filter_cache_items__in one_permit_db
            (permit_table one_permit_db)
            (PermitCacheItemQuerySet.by_time (cache_table one_permit_db) 7))
  = 2%nat
  ∧ length (PermitQuerySet.by_time one_permit_db
              (permit_table one_permit_db) 7) = 1%nat.
Proof. vm_compute. done. Qed.

Lemma C1_witness :
  Z.max (Subject.start_time scenario_7_subject)
        (Area.start_time scenario_7_area)
    >= Z.min (Subject.end_time scenario_7_subject)
             (Area.end_time scenario_7_area)
  ∧ intersection_row scenario_7 scenario_7_subject scenario_7_area
    ∉ _make_cache_items scenario_7.
Proof.
  assert (Z.max (Subject.start_time scenario_7_subject)
                (Area.start_time scenario_7_area)
          >= Z.min (Subject.end_time scenario_7_subject)
                   (Area.end_time scenario_7_area)) as Hge.
  { simpl. lia. }
  split; [exact Hge|].
  exact (proj2 (C1_cache_rows_are_nonempty_intersections scenario_7)
           scenario_7_subject scenario_7_area Hge).
Defined.

Lemma one_permit_db_keys :
  NoDup (PermitCacheItem.id <$> cache_table one_permit_db).
Proof. apply (bool_decide_unpack _). vm_compute. exact I. Defined.

Lemma C2_witness :
  NoDup (PermitCacheItem.id <$> cache_table one_permit_db)
  ∧ NoDup (PermitQuerySet.by_time one_permit_db (permit_table one_permit_db) 7).
Proof.
  split; [exact one_permit_db_keys|].
  exact (proj2 (C2_by_time_returns_permits_valid_at one_permit_db
                  (permit_table one_permit_db) 7 one_permit_db_keys)).
Defined.



(** C4, what fails in [bulk_create].  With one permit whose subject entry
    fails the schema, the block of the transaction raises the validation
    error in a state in which the permit row has already been inserted. *)
Lemma C4_bulk_create_validates_after_the_insert :
  fst (PermitQuerySet.bulk_create_block [bad_permit] one_series_db)
    = Raise (ValidationError "subjects")
  ∧ permit_table one_series_db = []
  ∧ permit_table
      (snd (PermitQuerySet.bulk_create_block [bad_permit] one_series_db))
    = [with_id bad_permit 1].
Proof. vm_compute. done. Qed.

Lemma bad_permit_invalid : invalid_entry bad_permit.
Proof.
  left. apply Exists_cons_hd. intros (_ & _ & Hlen).
  unfold TextField in Hlen. simpl in Hlen. lia.
Defined.

Lemma C4_witness :
  invalid_entry bad_permit
  ∧ Exists invalid_entry [two_period_permit; bad_permit]
  ∧ (∃ fields,
       save bad_permit one_series_db
       = (Raise (ValidationError fields), one_series_db))
  ∧ (∃ e db',
       PermitQuerySet.bulk_create [two_period_permit; bad_permit] one_series_db
       = (Raise e, db')
       ∧ same_rows one_series_db db').
Proof.
  assert (Exists invalid_entry [two_period_permit; bad_permit]) as Hlist.
  { apply Exists_cons_tl, Exists_cons_hd, bad_permit_invalid. }
  split; [exact bad_permit_invalid|]. split; [exact Hlist|].
  pose proof (C4_rejected_writes_leave_the_store one_series_db)
    as (Hsave & Hbulk & _).
  split.
  - exact (Hsave bad_permit bad_permit_invalid).
  - exact (Hbulk _ Hlist).
Defined.







Lemma first_save_succeeds :
  save two_period_permit one_series_db
  = (Ok (with_id two_period_permit 1), one_permit_db).
Proof. vm_compute. reflexivity. Defined.

Lemma C8_witness :
  cache_seq_ok one_series_db
  ∧ save two_period_permit one_series_db
    = (Ok (with_id two_period_permit 1), one_permit_db)
  ∧ ∃ db2,
      save (with_id two_period_permit 1) one_permit_db
      = (Ok (with_id two_period_permit 1), db2)
      ∧ row_tuple <$> cache_rows_of (with_id two_period_permit 1) db2
        = row_tuple <$> cache_rows_of (with_id two_period_permit 1)
                          one_permit_db.
Proof.
  assert (cache_seq_ok one_series_db) as Hseq by apply Forall_nil_2.
  split; [exact Hseq|]. split; [exact first_save_succeeds|].
  exact (C8_resave_keeps_cache_rows _ _ _ _ Hseq first_save_succeeds).
Defined.

Lemma C9_witness :
  cache_ok one_permit_db
  ∧ cache_ok (run_op (OpBulkCreate [blank_permit; scenario_6]) one_permit_db).
Proof.
  assert (cache_ok one_permit_db) as Hok.
  { unfold cache_ok. apply (bool_decide_unpack _). vm_compute. exact I. }
  split; [exact Hok|].
  exact (proj1 (proj2 C9_stored_intervals_are_nonempty) _ _ Hok).
Defined.

Lemma C10_witness :
  (Permit.subjects blank_permit = [] ∨ Permit.areas blank_permit = [])
  ∧ full_clean blank_permit one_series_db = (Ok tt, one_series_db)
  ∧ ∃ self1 db1,
      save blank_permit one_series_db = (Ok self1, db1)
      ∧ self1 ∈ permit_table db1
      ∧ is_Some (Permit.id self1)
      ∧ Permit.subjects self1 = Permit.subjects blank_permit
      ∧ Permit.areas self1 = Permit.areas blank_permit
      ∧ cache_rows_of self1 db1 = []
      ∧ ∀ qs timestamp registration_number area_identifier,
          (self1 ∉ PermitQuerySet.by_time db1 qs timestamp)
          ∧ (self1 ∉ PermitQuerySet.by_subject db1 qs registration_number)
          ∧ (self1 ∉ PermitQuerySet.by_area db1 qs area_identifier).
Proof.
  assert (Permit.subjects blank_permit = [] ∨ Permit.areas blank_permit = [])
    as Hblank by (left; reflexivity).
  assert (full_clean blank_permit one_series_db = (Ok tt, one_series_db))
    as Hclean by (vm_compute; reflexivity).
  split; [exact Hblank|]. split; [exact Hclean|].
  apply (proj2 (proj2 (C10_blank_lists_save_without_cache_rows
                         blank_permit one_series_db Hblank)) Hclean).
  intros _. apply (bool_decide_unpack _). vm_compute. exact I.
Defined.

(** * Primary keys in the states that the operations lead to *)

Lemma cache_seq_grows_bind {A B : Type} (m : M A) (f : A → M B) :
  cache_seq_grows m → (∀ a, cache_seq_grows (f a)) → cache_seq_grows (m ≫= f).
Proof.
  intros Hm Hf db. unfold mbind, M_bind. specialize (Hm db).
  destruct (m db) as [[a|e] db1]; simpl in *; [|done].
  specialize (Hf a db1). lia.
Qed.

Lemma cache_seq_grows_atomic {A : Type} (block : M A) :
  cache_seq_grows block → cache_seq_grows (atomic block).
Proof.
  intros Hm db. unfold atomic. specialize (Hm db).
  by destruct (block db) as [[a|e] db1].
Qed.

Lemma cache_seq_grows_still {A : Type} (m : M A) :
  (∀ db, cache_seq (snd (m db)) = cache_seq db) → cache_seq_grows m.
Proof. intros Hm db. rewrite Hm. lia. Qed.

Lemma cache_seq_grows_insert_permit (row : Permit.t) :
  cache_seq_grows (insert_permit row).
Proof.
  apply cache_seq_grows_still. intros db. unfold insert_permit. unfold_M.
  by repeat case_decide.
Qed.

Lemma cache_seq_grows_update_permit (row : Permit.t) :
  cache_seq_grows (update_permit row).
Proof.
  apply cache_seq_grows_still. intros db. unfold update_permit. unfold_M.
  by repeat case_decide.
Qed.

Lemma cache_seq_grows_ret {A : Type} (a : A) : cache_seq_grows (mret a).
Proof. by apply cache_seq_grows_still. Qed.

Lemma cache_seq_grows_Model_insert (self : Permit.t) :
  cache_seq_grows (Model_insert self).
Proof.
  unfold Model_insert. destruct (Permit.id self).
  - apply cache_seq_grows_bind; [apply cache_seq_grows_insert_permit|].
    intros _. apply cache_seq_grows_ret.
  - apply cache_seq_grows_bind; [by apply cache_seq_grows_still|]. intros pk.
    apply cache_seq_grows_bind; [apply cache_seq_grows_insert_permit|].
    intros _. apply cache_seq_grows_ret.
Qed.

Lemma cache_seq_grows_Model_save (self : Permit.t) :
  cache_seq_grows (Model_save self).
Proof.
  unfold Model_save. destruct (Permit.id self);
    [|apply cache_seq_grows_Model_insert].
  apply cache_seq_grows_bind; [by apply cache_seq_grows_still|]. intros db.
  apply cache_seq_grows_bind; [|intros _; apply cache_seq_grows_ret].
  case_decide;
    [apply cache_seq_grows_update_permit | apply cache_seq_grows_insert_permit].
Qed.

Lemma cache_seq_grows_cache_bulk_create (cache_items : list PermitCacheItem.t) :
  cache_seq_grows (cache_bulk_create cache_items).
Proof.
  induction cache_items as [|row rest IH]; simpl.
  - apply cache_seq_grows_ret.
  - apply cache_seq_grows_bind; [|by intros _].
    intros db. unfold insert_cache_item, nextval_cache. unfold_M. simpl.
    repeat case_decide; simpl; lia.
Qed.

Lemma cache_seq_grows_full_clean (self : Permit.t) :
  cache_seq_grows (full_clean self).
Proof.
  apply cache_seq_grows_still. intros db. by rewrite full_clean_frame.
Qed.

Lemma cache_seq_grows_save (self : Permit.t) : cache_seq_grows (save self).
Proof.
  unfold save. apply cache_seq_grows_bind; [apply cache_seq_grows_full_clean|].
  intros _. apply cache_seq_grows_atomic. unfold save_block.
  apply cache_seq_grows_bind; [apply cache_seq_grows_Model_save|]. intros self1.
  apply cache_seq_grows_bind; [by apply cache_seq_grows_still|]. intros _.
  apply cache_seq_grows_bind; [apply cache_seq_grows_cache_bulk_create|].
  intros _. apply cache_seq_grows_ret.
Qed.

Lemma cache_seq_grows_bulk_create (permits : list Permit.t) :
  cache_seq_grows (PermitQuerySet.bulk_create permits).
Proof.
  unfold PermitQuerySet.bulk_create, PermitQuerySet.bulk_create_block.
  apply cache_seq_grows_atomic. apply cache_seq_grows_bind.
  - induction permits as [|p rest IH]; simpl; [apply cache_seq_grows_ret|].
    apply cache_seq_grows_bind; [apply cache_seq_grows_Model_insert|].
    intros q. apply cache_seq_grows_bind; [exact IH|].
    intros qs. apply cache_seq_grows_ret.
  - intros created. apply cache_seq_grows_bind.
    + generalize (@nil PermitCacheItem.t).
      induction created as [|p rest IH]; intros acc; simpl;
        [apply cache_seq_grows_ret|].
      apply cache_seq_grows_bind; [apply cache_seq_grows_full_clean|].
      intros _. apply IH.
    + intros items.
      apply cache_seq_grows_bind; [apply cache_seq_grows_cache_bulk_create|].
      intros _. apply cache_seq_grows_ret.
Qed.

Lemma number_rows_keys (next : Z) (rows : list PermitCacheItem.t) :
  NoDup (PermitCacheItem.id <$> number_rows next rows)
  ∧ Forall (λ c, ∃ pk, PermitCacheItem.id c = Some pk ∧ next <= pk)
           (number_rows next rows).
Proof.
  revert next. induction rows as [|row rest IH]; intros next; simpl.
  - split; constructor.
  - destruct (IH (next + 1)) as [Hnd Hge]. split.
    + apply NoDup_cons. split; [|done]. intros Hin.
      apply list_elem_of_fmap in Hin as (c & Hid & Hc).
      rewrite Forall_forall in Hge. destruct (Hge c Hc) as (pk & Hpk & Hle).
      rewrite Hpk in Hid. injection Hid as Heq. lia.
    + constructor.
      * exists next. split; [done | lia].
      * eapply Forall_impl; [exact Hge|]. simpl.
        intros c (pk & Hpk & Hle). exists pk. split; [done | lia].
Qed.

Lemma cache_keys_append (db : DB) (kept : list PermitCacheItem.t)
    (rows : list PermitCacheItem.t) :
  cache_keys_ok db → kept `sublist_of` cache_table db →
  NoDup (PermitCacheItem.id
           <$> (kept ++ number_rows (cache_seq db) rows))
  ∧ Forall (λ c, ∃ pk, PermitCacheItem.id c = Some pk
                       ∧ pk < cache_seq db + Z.of_nat (length rows))
           (kept ++ number_rows (cache_seq db) rows).
Proof.
  intros [Hnd Hseq] Hsub.
  assert (Forall (λ c, ∃ pk, PermitCacheItem.id c = Some pk
                             ∧ pk < cache_seq db) kept) as Hkept.
  { unfold cache_seq_ok in Hseq. rewrite Forall_forall in *.
    intros c Hc. apply Hseq. by eapply elem_of_sublist. }
  destruct (number_rows_keys (cache_seq db) rows) as [Hnew Hge]. split.
  - rewrite fmap_app. apply NoDup_app. split; [|split; [|done]].
    + eapply sublist_NoDup; [exact Hnd|]. by apply fmap_sublist.
    + intros k Hk Hk'.
      apply list_elem_of_fmap in Hk as (c & -> & Hc).
      apply list_elem_of_fmap in Hk' as (c' & Hid & Hc').
      rewrite Forall_forall in Hkept, Hge.
      destruct (Hkept c Hc) as (pk & Hpk & Hlt).
      destruct (Hge c' Hc') as (pk' & Hpk' & Hle).
      rewrite Hpk, Hpk' in Hid. injection Hid as Heq. lia.
  - apply Forall_app. split.
    + eapply Forall_impl; [exact Hkept|]. simpl.
      intros c (pk & Hpk & Hlt). exists pk. split; [done | lia].
    + apply number_rows_seq.
Qed.

Lemma cache_keys_rejected (db db' : DB) :
  cache_keys_ok db → same_rows db db' → cache_seq db <= cache_seq db' →
  cache_keys_ok db'.
Proof.
  intros [Hnd Hseq] (_ & _ & Hcache) Hle. unfold cache_keys_ok, cache_seq_ok.
  rewrite Hcache. split; [done|].
  eapply Forall_impl; [exact Hseq|]. simpl.
  intros c (pk & Hpk & Hlt). exists pk. split; [done | lia].
Qed.

Lemma save_cache_keys (self : Permit.t) (db : DB) :
  cache_keys_ok db → cache_keys_ok (snd (save self db)).
Proof.
  intros Hok. pose proof (cache_seq_grows_save self db) as Hle.
  destruct (save self db) as [[self1|e] db1] eqn:Hsave; simpl in *.
  - apply save_Ok in Hsave as [_ Hblock].
    apply save_block_Ok in Hblock as (db_mid & _ & ->).
    unfold cache_keys_ok, cache_seq_ok. simpl.
    apply (cache_keys_append db); [done | apply sublist_filter].
  - apply save_Raise in Hsave. by eapply cache_keys_rejected.
Qed.

Lemma bulk_create_cache_keys (permits : list Permit.t) (db : DB) :
  cache_keys_ok db → cache_keys_ok (snd (PermitQuerySet.bulk_create permits db)).
Proof.
  intros Hok. pose proof (cache_seq_grows_bulk_create permits db) as Hle.
  destruct (PermitQuerySet.bulk_create permits db) as [[created|e] db1]
    eqn:Hbulk; simpl in *.
  - unfold PermitQuerySet.bulk_create in Hbulk. rewrite atomic_Ok in Hbulk.
    apply bulk_create_block_Ok in Hbulk as (_ & Hcache & Hseq).
    unfold cache_keys_ok, cache_seq_ok. rewrite Hcache, Hseq.
    by apply (cache_keys_append db).
  - apply atomic_Raise in Hbulk. by eapply cache_keys_rejected.
Qed.

Lemma series_ops_cache_seq (op : Op) (db : DB) :
  match op with OpSave _ | OpBulkCreate _ => False | _ => True end →
  cache_seq (run_op op db) = cache_seq db.
Proof.
  destruct op as [| |act now|obj now|pk now|now ra]; try done; intros _; simpl.
  - unfold PermitSeries_create, nextval_series. unfold_M. simpl.
    by case_decide.
  - unfold activate, atomic. unfold_M. simpl.
    repeat (case_decide; simpl); done.
  - unfold prune, delete_series. unfold_M. simpl.
    repeat (case_decide; simpl); done.
Qed.

Lemma run_op_cache_keys (op : Op) (db : DB) :
  cache_keys_ok db → cache_keys_ok (run_op op db).
Proof.
  intros Hok. destruct op as [self|permits| | | |] eqn:Hop;
    [by apply save_cache_keys | by apply bulk_create_cache_keys | ..];
    unfold cache_keys_ok, cache_seq_ok;
    rewrite <- Hop, series_ops_cache_table, series_ops_cache_seq by by subst.
  all: done.
Qed.

(** Every state reached from the empty store satisfies the primary key of
    the cache table, with the keys in use below the sequence. *)
Lemma run_cache_keys (ops : list Op) : cache_keys_ok (run ops empty_db).
Proof.
  assert (∀ db, cache_keys_ok db → cache_keys_ok (run ops db)) as Hrun.
  { induction ops as [|op ops IH]; intros db Hok; simpl; [done|].
    by apply IH, run_op_cache_keys. }
  apply Hrun. split; constructor.
Qed.

Lemma save_series_table (self : Permit.t) (db : DB) :
  series_table (snd (save self db)) = series_table db.
Proof.
  destruct (save self db) as [[self1|e] db1] eqn:Hsave; simpl.
  - apply save_Ok in Hsave as [_ Hblock].
    apply save_block_Ok in Hblock as (db_mid & Hsave & ->). simpl.
    apply (saved_series_table _ _ _ _ (Model_save_Ok _ _ _ _ Hsave)).
  - by apply save_Raise in Hsave as (Hs & _).
Qed.

Lemma bulk_create_series_table (permits : list Permit.t) (db : DB) :
  series_table (snd (PermitQuerySet.bulk_create permits db)) = series_table db.
Proof.
  destruct (PermitQuerySet.bulk_create permits db) as [[created|e] db1]
    eqn:Hbulk; simpl.
  - unfold PermitQuerySet.bulk_create in Hbulk. rewrite atomic_Ok in Hbulk.
    by apply bulk_create_block_Ok in Hbulk as (Hs & _).
  - by apply atomic_Raise in Hbulk as (Hs & _).
Qed.

Lemma run_op_series_keys (op : Op) (db : DB) :
  NoDup (PermitSeries.id <$> series_table db) →
  NoDup (PermitSeries.id <$> series_table (run_op op db)).
Proof.
  intros Hnd. destruct op as [self|permits|act now|obj now|pk now|now ra];
    simpl.
  - by rewrite save_series_table.
  - by rewrite bulk_create_series_table.
  - unfold PermitSeries_create, nextval_series. unfold_M. simpl.
    case_decide as Hpk; simpl; [done|].
    rewrite fmap_app. apply NoDup_app. split; [done|]. split.
    + intros k Hk Hk'. apply list_elem_of_singleton in Hk'. by subst k.
    + apply NoDup_singleton.
  - unfold PermitSeries_save. unfold_M. simpl.
    rewrite <- list_fmap_compose.
    erewrite list_fmap_ext; [exact Hnd|]. intros i s _. simpl.
    by case_decide.
  - destruct (decide (series_exists pk db)) as [Hpk|Hpk].
    + rewrite activate_succeeds by done. simpl. by rewrite flagged_ids.
    + by rewrite activate_refused.
  - destruct (prune now ra db) as [[n|e] db1] eqn:Hprune; simpl.
    + rewrite (prune_Ok _ _ _ _ _ Hprune). by apply NoDup_fmap_filter.
    + unfold prune in Hprune. apply bind_Raise in Hprune
        as [[=] | (db0 & db2 & [= <- <-] & H)].
      by apply delete_series_Raise in H as ->.
Qed.

(** Every state reached from the empty store satisfies the primary key of
    the series table. *)
Lemma run_series_keys (ops : list Op) :
  NoDup (PermitSeries.id <$> series_table (run ops empty_db)).
Proof.
  assert (∀ db, NoDup (PermitSeries.id <$> series_table db) →
                NoDup (PermitSeries.id <$> series_table (run ops db))) as Hrun.
  { induction ops as [|op ops IH]; intros db Hok; simpl; [done|].
    by apply IH, run_op_series_keys. }
  apply Hrun. constructor.
Qed.

(** * The number of active series *)

Lemma length_filter_filter_le {A : Type} (P Q : A → Prop)
    `{!∀ x, Decision (P x)} `{!∀ x, Decision (Q x)} (l : list A) :
  (length (filter P (filter Q l)) ≤ length (filter P l))%nat.
Proof.
  induction l as [|x l IH]; [done|].
  destruct (decide (Q x)) as [HQ|HQ].
  - rewrite (filter_cons_True Q) by done.
    destruct (decide (P x)) as [HP|HP].
    + rewrite !(filter_cons_True P) by done. simpl. lia.
    + by rewrite !(filter_cons_False P) by done.
  - rewrite (filter_cons_False Q) by done.
    destruct (decide (P x)) as [HP|HP].
    + rewrite (filter_cons_True P) by done. simpl. lia.
    + by rewrite (filter_cons_False P) by done.
Qed.

Lemma length_filter_fmap_le {A : Type} (P : A → Prop)
    `{!∀ x, Decision (P x)} (f : A → A) (l : list A) :
  (∀ x, P (f x) → P x) →
  (length (filter P (f <$> l)) ≤ length (filter P l))%nat.
Proof.
  intros Hf. induction l as [|x l IH]; [done|]. rewrite fmap_cons.
  destruct (decide (P (f x))) as [HP|HP].
  - rewrite !filter_cons_True by auto. simpl. lia.
  - rewrite (filter_cons_False P (f x)) by done.
    destruct (decide (P x)) as [HP'|HP'].
    + rewrite filter_cons_True by done. simpl. lia.
    + by rewrite filter_cons_False by done.
Qed.

Lemma run_op_one_active (op : Op) (db : DB) :
  lifecycle op →
  NoDup (PermitSeries.id <$> series_table db) →
  (length (PermitSeriesQuerySet.active (series_table db)) ≤ 1)%nat →
  (length (PermitSeriesQuerySet.active (series_table (run_op op db))) ≤ 1)%nat.
Proof.
  intros Hop Hnd Hone.
  destruct op as [self|permits|act now|obj now|pk now|now ra]; simpl in *.
  - by rewrite save_series_table.
  - by rewrite bulk_create_series_table.
  - subst act. unfold PermitSeries_create, nextval_series. unfold_M. simpl.
    case_decide; simpl; [done|]. unfold PermitSeriesQuerySet.active in *.
    rewrite filter_app, filter_cons_False by done.
    by rewrite filter_nil, app_nil_r.
  - unfold PermitSeries_save. unfold_M. simpl. etrans; [|exact Hone].
    apply length_filter_fmap_le. intros s. case_decide; [|done].
    simpl. by rewrite Hop.
  - destruct (decide (series_exists pk db)) as [Hpk|Hpk].
    + rewrite activate_succeeds by done. simpl. by rewrite active_flagged.
    + by rewrite activate_refused.
  - destruct (prune now ra db) as [[n|e] db1] eqn:Hprune; simpl.
    + rewrite (prune_Ok _ _ _ _ _ Hprune).
      etrans; [apply length_filter_filter_le | done].
    + unfold prune in Hprune. apply bind_Raise in Hprune
        as [[=] | (db0 & db2 & [= <- <-] & H)].
      by apply delete_series_Raise in H as ->.
Qed.

Lemma run_one_active (ops : list Op) (db : DB) :
  Forall lifecycle ops →
  NoDup (PermitSeries.id <$> series_table db) →
  (length (PermitSeriesQuerySet.active (series_table db)) ≤ 1)%nat →
  (length (PermitSeriesQuerySet.active (series_table (run ops db))) ≤ 1)%nat.
Proof.
  intros Hops. revert db.
  induction Hops as [|op ops Hop _ IH]; intros db Hnd Hone; simpl; [done|].
  apply IH; [by apply run_op_series_keys | by apply run_op_one_active].
Qed.

(** C5.  In every state that the operations of the life cycle lead to
    from the empty store, at most one series is active.  An activation of
    [b] while another series [a] is active is answered, keeps the series
    that there are, and leaves [a] inactive, [b] active and no other
    series active: exactly one series is active afterwards. *)
Theorem C5_at_most_one_series_is_active :
  (∀ ops,
     Forall lifecycle ops →
     (length (PermitSeriesQuerySet.active (series_table (run ops empty_db)))
      ≤ 1)%nat)
  ∧ (∀ db a b now,
       NoDup (PermitSeries.id <$> series_table db) →
       a ∈ series_table db → PermitSeries.active a = true →
       b ∈ series_table db → PermitSeries.id b ≠ PermitSeries.id a →
       ∃ db',
         activate (PermitSeries.id b) now db = (Ok tt, db')
         ∧ PermitSeries.id <$> series_table db'
           = PermitSeries.id <$> series_table db
         ∧ (∀ s, s ∈ series_table db' →
                 PermitSeries.id s = PermitSeries.id a →
                 PermitSeries.active s = false)
         ∧ (∀ s, s ∈ series_table db' →
                 PermitSeries.id s = PermitSeries.id b →
                 PermitSeries.active s = true)
         ∧ (∀ s, s ∈ series_table db' →
                 PermitSeries.active s = true →
                 PermitSeries.id s = PermitSeries.id b)
         ∧ length (PermitSeriesQuerySet.active (series_table db')) = 1%nat).
Proof.
  split.
  - intros ops Hops. apply run_one_active; [done | apply NoDup_nil_2 |].
    simpl. lia.
  - intros db a b now Hnd Ha Hactive Hb Hne.
    assert (series_exists (PermitSeries.id b) db) as Hpk
      by by apply list_elem_of_fmap_2.
    eexists. split; [by apply activate_succeeds|]. simpl.
    assert (∀ s, s ∈ set_active_flags (PermitSeries.id b) now
                       <$> series_table db →
                 PermitSeries.active s = true
                 ↔ PermitSeries.id s = PermitSeries.id b) as Hflag.
    { intros s' Hs'. apply list_elem_of_fmap in Hs' as (s & -> & _).
      by rewrite set_active_flags_active, set_active_flags_id. }
    split; [apply flagged_ids|]. split; [|split; [|split]].
    + intros s Hs Hid. destruct (PermitSeries.active s) eqn:Hs'; [|done].
      apply Hflag in Hs'; [congruence | done].
    + intros s Hs Hid. by apply Hflag.
    + intros s Hs Hs'. by apply Hflag.
    + by apply active_flagged.
Qed.

(** Outside the life cycle nothing bounds the number of active series:
    there is no uniqueness constraint, and two series created with
    [active=True] are both active. *)
Example create_active_is_outside_the_life_cycle :
  ¬ Forall lifecycle
      [ OpSeriesCreate true test_now; OpSeriesCreate true (test_now + 1) ]
  ∧ length (PermitSeriesQuerySet.active
              (series_table
                 (run [ OpSeriesCreate true test_now;
                        OpSeriesCreate true (test_now + 1) ] empty_db)))
    = 2%nat.
Proof.
  split; [|vm_compute; reflexivity].
  intros Hops. apply Forall_cons in Hops as [Hop _]. discriminate.
Qed.

Lemma C5_witness :
  Forall lifecycle
    [ OpSeriesCreate false test_now; OpSeriesCreate false test_now;
      OpActivate 2 (test_now + 1); OpActivate 1 (test_now + 2) ]
  ∧ (length (PermitSeriesQuerySet.active
               (series_table
                  (run [ OpSeriesCreate false test_now;
                         OpSeriesCreate false test_now;
                         OpActivate 2 (test_now + 1);
                         OpActivate 1 (test_now + 2) ] empty_db)))
     ≤ 1)%nat
  ∧ old_active_permit_series
    ∈ series_table (run test_series_get_activated_ops empty_db)
  ∧ PermitSeries.active old_active_permit_series = true
  ∧ new_permit_series
    ∈ series_table (run test_series_get_activated_ops empty_db)
  ∧ ∃ db',
      activate (PermitSeries.id new_permit_series) (test_now + 1)
        (run test_series_get_activated_ops empty_db)
      = (Ok tt, db')
      ∧ PermitSeries.id <$> series_table db'
        = PermitSeries.id
          <$> series_table (run test_series_get_activated_ops empty_db)
      ∧ (∀ s, s ∈ series_table db' →
              PermitSeries.id s = PermitSeries.id old_active_permit_series →
              PermitSeries.active s = false)
      ∧ (∀ s, s ∈ series_table db' →
              PermitSeries.id s = PermitSeries.id new_permit_series →
              PermitSeries.active s = true)
      ∧ (∀ s, s ∈ series_table db' →
              PermitSeries.active s = true →
              PermitSeries.id s = PermitSeries.id new_permit_series)
      ∧ length (PermitSeriesQuerySet.active (series_table db')) = 1%nat.
Proof.
  assert (Forall lifecycle
            [ OpSeriesCreate false test_now; OpSeriesCreate false test_now;
              OpActivate 2 (test_now + 1); OpActivate 1 (test_now + 2) ])
    as Hops by (repeat constructor).
  assert (NoDup (PermitSeries.id
                 <$> series_table (run test_series_get_activated_ops empty_db)))
    as Hnd by (apply (bool_decide_unpack _); vm_compute; exact I).
  assert (old_active_permit_series
          ∈ series_table (run test_series_get_activated_ops empty_db)) as Ha
    by (apply (bool_decide_unpack _); vm_compute; exact I).
  assert (new_permit_series
          ∈ series_table (run test_series_get_activated_ops empty_db)) as Hb
    by (apply (bool_decide_unpack _); vm_compute; exact I).
  split; [exact Hops|].
  split; [exact (proj1 C5_at_most_one_series_is_active _ Hops)|].
  split; [exact Ha|]. split; [reflexivity|]. split; [exact Hb|].
  apply (proj2 C5_at_most_one_series_is_active
           (run test_series_get_activated_ops empty_db)
           old_active_permit_series new_permit_series (test_now + 1)
           Hnd Ha eq_refl Hb).
  discriminate.
Defined.

(** * Further properties of the code *)

(** ** The series query set *)

Lemma foldl_later_spec (s : PermitSeries.t) (rest : list PermitSeries.t) :
  foldl PermitSeriesQuerySet.later s rest ∈ s :: rest
  ∧ ∀ r, r ∈ s :: rest →
         PermitSeries.modified_at r
         <= PermitSeries.modified_at (foldl PermitSeriesQuerySet.later s rest).
Proof.
  revert s. induction rest as [|x rest IH]; intros s; simpl.
  - split; [apply list_elem_of_here|]. intros r Hr.
    apply list_elem_of_singleton in Hr as ->. lia.
  - destruct (IH (PermitSeriesQuerySet.later s x)) as [Hin Hmax]. split.
    + apply elem_of_cons in Hin as [Heq|Hin].
      * rewrite Heq. unfold PermitSeriesQuerySet.later.
        case_decide; [right; left | left].
      * by do 2 right.
    + intros r Hr.
      assert (PermitSeries.modified_at s
              <= PermitSeries.modified_at (PermitSeriesQuerySet.later s x)
              ∧ PermitSeries.modified_at x
                <= PermitSeries.modified_at (PermitSeriesQuerySet.later s x))
        as [Hs Hx].
      { unfold PermitSeriesQuerySet.later. case_decide; lia. }
      pose proof (Hmax _ (list_elem_of_here _ _)) as Hlater.
      apply elem_of_cons in Hr as [->|Hr]; [lia|].
      apply elem_of_cons in Hr as [->|Hr]; [lia|].
      apply Hmax. by right.
Qed.

(** X1.  [latest_active()] answers [None] exactly when no series of the
    query set is active; otherwise it answers an active series of the
    query set that no active series was modified after. *)
Theorem X1_latest_active_is_latest (self : list PermitSeries.t) :
  match PermitSeriesQuerySet.latest_active self with
  | None => Forall (λ s, PermitSeries.active s = false) self
  | Some s =>
      s ∈ self ∧ PermitSeries.active s = true
      ∧ Forall (λ r, PermitSeries.active r = true →
                     PermitSeries.modified_at r <= PermitSeries.modified_at s)
               self
  end.
Proof.
  unfold PermitSeriesQuerySet.latest_active.
  destruct (PermitSeriesQuerySet.active self) as [|s rest] eqn:Hactive.
  - apply Forall_forall. intros r Hr.
    destruct (PermitSeries.active r) eqn:Hflag; [|done].
    assert (r ∈ PermitSeriesQuerySet.active self) as Hin
      by by apply list_elem_of_filter.
    rewrite Hactive in Hin. by apply elem_of_nil in Hin.
  - destruct (foldl_later_spec s rest) as [Hin Hmax].
    rewrite <- Hactive in Hin, Hmax.
    apply list_elem_of_filter in Hin as [Hflag Hin].
    split; [done|]. split; [done|]. apply Forall_forall. intros r Hr Hr'.
    apply Hmax. by apply list_elem_of_filter.
Qed.

(** ** Permit queries and how they chain *)

(** X2.  [by_area(a)] returns exactly the permits of the query set that
    own at least one cache row whose area identifier is [a], each once. *)
Theorem X2_by_area_returns_permits_of_area (db : DB) (self : list Permit.t)
    (area_identifier : string) :
  NoDup (PermitCacheItem.id <$> cache_table db) →
  (∀ p, p ∈ PermitQuerySet.by_area db self area_identifier ↔
        p ∈ self ∧ is_Some (Permit.id p)
        ∧ ∃ c, c ∈ cache_table db
               ∧ PermitCacheItem.permit c = Permit.id p
               ∧ PermitCacheItem.area_identifier c = area_identifier)
  ∧ NoDup (PermitQuerySet.by_area db self area_identifier).
Proof.
  intros Hnd. split.
  - intros p. unfold PermitQuerySet.by_area, PermitCacheItemQuerySet.by_area.
    by rewrite elem_of_query.
  - apply NoDup_remove_dups.
Qed.

Lemma by_time_elem_of (db : DB) (self : list Permit.t) (timestamp : Z)
    (p : Permit.t) :
  NoDup (PermitCacheItem.id <$> cache_table db) →
  p ∈ PermitQuerySet.by_time db self timestamp ↔
  p ∈ self ∧ is_Some (Permit.id p)
  ∧ ∃ c, c ∈ cache_table db ∧ PermitCacheItem.permit c = Permit.id p
         ∧ PermitCacheItem.start_time c <= timestamp
           <= PermitCacheItem.end_time c.
Proof.
  intros Hnd. unfold PermitQuerySet.by_time, PermitCacheItemQuerySet.by_time.
  rewrite elem_of_query by done.
  split; intros (Hp & Hsome & c & Hc & Hfk & Hlo & Hhi);
    (split; [done|]; split; [done|]; exists c; repeat split; [done ..| |]);
    lia.
Qed.

Lemma by_subject_elem_of (db : DB) (self : list Permit.t) (r : string)
    (p : Permit.t) :
  NoDup (PermitCacheItem.id <$> cache_table db) →
  p ∈ PermitQuerySet.by_subject db self r ↔
  p ∈ self ∧ is_Some (Permit.id p)
  ∧ ∃ c, c ∈ cache_table db ∧ PermitCacheItem.permit c = Permit.id p
         ∧ PermitCacheItem.registration_number c
           = Parking.normalize_reg_num r.
Proof.
  intros Hnd. unfold PermitQuerySet.by_subject,
    PermitCacheItemQuerySet.by_registration_number.
  by rewrite elem_of_query.
Qed.

Lemma by_area_elem_of (db : DB) (self : list Permit.t) (a : string)
    (p : Permit.t) :
  NoDup (PermitCacheItem.id <$> cache_table db) →
  p ∈ PermitQuerySet.by_area db self a ↔
  p ∈ self ∧ is_Some (Permit.id p)
  ∧ ∃ c, c ∈ cache_table db ∧ PermitCacheItem.permit c = Permit.id p
         ∧ PermitCacheItem.area_identifier c = a.
Proof.
  intros Hnd. unfold PermitQuerySet.by_area, PermitCacheItemQuerySet.by_area.
  by rewrite elem_of_query.
Qed.

(** X3.  Chained queries test the cache rows of a permit one query at a
    time: [by_time(t).by_subject(r).by_area(a)] returns a permit when it
    owns a row that contains [t], a row for the vehicle [r] and a row for
    the area [a], and these need not be one and the same row. *)
Theorem X3_chained_queries_match_rows_independently (db : DB)
    (self : list Permit.t) (timestamp : Z) (registration_number : string)
    (area_identifier : string) (p : Permit.t) :
  NoDup (PermitCacheItem.id <$> cache_table db) →
  p ∈ PermitQuerySet.by_area db
        (PermitQuerySet.by_subject db
           (PermitQuerySet.by_time db self timestamp) registration_number)
        area_identifier ↔
  p ∈ self ∧ is_Some (Permit.id p)
  ∧ (∃ c, c ∈ cache_table db ∧ PermitCacheItem.permit c = Permit.id p
          ∧ PermitCacheItem.start_time c <= timestamp
            <= PermitCacheItem.end_time c)
  ∧ (∃ c, c ∈ cache_table db ∧ PermitCacheItem.permit c = Permit.id p
          ∧ PermitCacheItem.registration_number c
            = Parking.normalize_reg_num registration_number)
  ∧ (∃ c, c ∈ cache_table db ∧ PermitCacheItem.permit c = Permit.id p
          ∧ PermitCacheItem.area_identifier c = area_identifier).
Proof.
  intros Hnd.
  rewrite by_area_elem_of, by_subject_elem_of, by_time_elem_of by done.
  tauto.
Qed.

(** The permit for X in A until 10 and Y in B from 20 is returned for the
    vehicle Y in the area A at time 5, although none of its cache rows is
    for Y in A. *)
Example chained_queries_mix_rows :
  PermitQuerySet.by_area two_vehicle_db
    (PermitQuerySet.by_subject two_vehicle_db
       (PermitQuerySet.by_time two_vehicle_db (permit_table two_vehicle_db) 5)
       "Y") "A"
  = [with_id two_vehicle_permit 1]
  ∧ row_tuple <$> cache_table two_vehicle_db
    = [("X", "A", 0, 10); ("Y", "B", 20, 30)].
Proof. vm_compute. done. Qed.

Lemma two_vehicle_db_keys :
  NoDup (PermitCacheItem.id <$> cache_table two_vehicle_db).
Proof. apply (bool_decide_unpack _). vm_compute. exact I. Defined.

Lemma X2_witness :
  NoDup (PermitCacheItem.id <$> cache_table two_vehicle_db)
  ∧ NoDup (PermitQuerySet.by_area two_vehicle_db
             (permit_table two_vehicle_db) "A").
Proof.
  split; [exact two_vehicle_db_keys|].
  exact (proj2 (X2_by_area_returns_permits_of_area two_vehicle_db
                  (permit_table two_vehicle_db) "A" two_vehicle_db_keys)).
Defined.

Lemma X3_witness :
  NoDup (PermitCacheItem.id <$> cache_table two_vehicle_db)
  ∧ (with_id two_vehicle_permit 1
     ∈ PermitQuerySet.by_area two_vehicle_db
         (PermitQuerySet.by_subject two_vehicle_db
            (PermitQuerySet.by_time two_vehicle_db
               (permit_table two_vehicle_db) 5) "Y") "A"
     ↔ with_id two_vehicle_permit 1 ∈ permit_table two_vehicle_db
       ∧ is_Some (Permit.id (with_id two_vehicle_permit 1))
       ∧ (∃ c, c ∈ cache_table two_vehicle_db
               ∧ PermitCacheItem.permit c
                 = Permit.id (with_id two_vehicle_permit 1)
               ∧ PermitCacheItem.start_time c <= 5
                 <= PermitCacheItem.end_time c)
       ∧ (∃ c, c ∈ cache_table two_vehicle_db
               ∧ PermitCacheItem.permit c
                 = Permit.id (with_id two_vehicle_permit 1)
               ∧ PermitCacheItem.registration_number c
                 = Parking.normalize_reg_num "Y")
       ∧ (∃ c, c ∈ cache_table two_vehicle_db
               ∧ PermitCacheItem.permit c
                 = Permit.id (with_id two_vehicle_permit 1)
               ∧ PermitCacheItem.area_identifier c = "A")).
Proof.
  split; [exact two_vehicle_db_keys|].
  exact (X3_chained_queries_match_rows_independently two_vehicle_db
           (permit_table two_vehicle_db) 5 "Y" "A"
           (with_id two_vehicle_permit 1) two_vehicle_db_keys).
Defined.

Lemma remove_dups_filter {A : Type} `{!EqDecision A} (P : A → Prop)
    `{!∀ x, Decision (P x)} (l : list A) :
  remove_dups (filter P l) = filter P (remove_dups l).
Proof.
  induction l as [|x l IH]; [done|]. simpl.
  destruct (decide (P x)) as [HP|HP].
  - rewrite filter_cons_True by done. simpl.
    destruct (decide_rel (∈) x l) as [Hin|Hout];
      destruct (decide_rel (∈) x (filter P l)) as [Hin'|Hout'].
    + done.
    + exfalso. apply Hout'. by apply list_elem_of_filter.
    + exfalso. by apply list_elem_of_filter in Hin' as [_ Hin'].
    + rewrite filter_cons_True by done. by rewrite IH.
  - rewrite filter_cons_False by done.
    destruct (decide_rel (∈) x l); [done|].
    by rewrite filter_cons_False.
Qed.

Lemma filter_cache_items__in_filter (P : Permit.t → Prop)
    `{!∀ p, Decision (P p)} (db : DB) (self : list Permit.t)
    (cache_items : list PermitCacheItem.t) :
  filter P (PermitQuerySet.filter_cache_items__in db self cache_items)
  = PermitQuerySet.filter_cache_items__in db (filter P self) cache_items.
Proof.
  unfold PermitQuerySet.filter_cache_items__in.
  induction self as [|p self IH]; [done|].
  rewrite bind_cons, filter_app, IH.
  destruct (decide (P p)) as [HP|HP].
  - rewrite filter_cons_True, bind_cons by done. f_equal.
    apply filter_all, Forall_bind, Forall_forall. intros c _. simpl.
    case_decide; by repeat constructor.
  - rewrite filter_cons_False by done.
    rewrite filter_none; [done|]. apply Forall_bind, Forall_forall.
    intros c _. simpl. case_decide; by repeat constructor.
Qed.

(** X4.  The scope [active()] commutes with each of the three queries:
    restricting to the permits of an active series before the query or
    after it gives the same list. *)
Theorem X4_active_commutes_with_queries (db : DB) (self : list Permit.t)
    (timestamp : Z) (registration_number area_identifier : string) :
  PermitQuerySet.active db (PermitQuerySet.by_time db self timestamp)
  = PermitQuerySet.by_time db (PermitQuerySet.active db self) timestamp
  ∧ PermitQuerySet.active db
      (PermitQuerySet.by_subject db self registration_number)
    = PermitQuerySet.by_subject db (PermitQuerySet.active db self)
        registration_number
  ∧ PermitQuerySet.active db (PermitQuerySet.by_area db self area_identifier)
    = PermitQuerySet.by_area db (PermitQuerySet.active db self)
        area_identifier.
Proof.
  unfold PermitQuerySet.by_time, PermitQuerySet.by_subject,
    PermitQuerySet.by_area, PermitQuerySet.distinct, PermitQuerySet.active.
  repeat split;
    by rewrite <- filter_cache_items__in_filter, remove_dups_filter.
Qed.

(** ** What a save means for the queries *)

Lemma elem_of_number_rows (next : Z) (rows : list PermitCacheItem.t)
    (c : PermitCacheItem.t) :
  c ∈ number_rows next rows → ∃ row k, row ∈ rows ∧ c = with_cache_id row k.
Proof.
  revert next. induction rows as [|row rest IH]; intros next; simpl.
  - intros H. by apply elem_of_nil in H.
  - intros H. apply elem_of_cons in H as [->|H].
    + exists row, next. split; [left | done].
    + destruct (IH _ H) as (row' & k & Hrow' & ->).
      exists row', k. split; [by right | done].
Qed.

Lemma number_rows_elem_of (next : Z) (rows : list PermitCacheItem.t)
    (row : PermitCacheItem.t) :
  row ∈ rows → ∃ k, with_cache_id row k ∈ number_rows next rows.
Proof.
  revert next. induction rows as [|row' rest IH]; intros next; simpl.
  - intros H. by apply elem_of_nil in H.
  - intros H. apply elem_of_cons in H as [->|H].
    + exists next. left.
    + destruct (IH (next + 1) H) as [k Hk]. exists k. by right.
Qed.

(** Which rows a permit owns right after a successful [save], up to the
    primary keys of the rows. *)
Lemma saved_rows_exist (Q : PermitCacheItem.t → Prop) (self self1 : Permit.t)
    (db db1 : DB) :
  (∀ row k, Q (with_cache_id row k) ↔ Q row) →
  save self db = (Ok self1, db1) →
  (∃ c, c ∈ cache_table db1 ∧ PermitCacheItem.permit c = Permit.id self1 ∧ Q c)
  ↔ ∃ row, row ∈ _make_cache_items self1 ∧ Q row.
Proof.
  intros HQ Hsave. pose proof (save_cache_rows _ _ _ _ Hsave) as Hrows. split.
  - intros (c & Hc & Hfk & Hc').
    assert (c ∈ cache_rows_of self1 db1) as Hin by by apply list_elem_of_filter.
    rewrite Hrows in Hin.
    apply elem_of_number_rows in Hin as (row & k & Hrow & ->).
    exists row. split; [done|]. by apply (HQ row k).
  - intros (row & Hrow & Hrow').
    destruct (number_rows_elem_of (cache_seq db) _ _ Hrow) as [k Hk].
    rewrite <- Hrows in Hk. apply list_elem_of_filter in Hk as [Hfk Hk].
    exists (with_cache_id row k). split; [done|]. split; [done|].
    by apply HQ.
Qed.

Lemma save_same_lists (self self1 : Permit.t) (db db1 : DB) :
  save self db = (Ok self1, db1) →
  is_Some (Permit.id self1)
  ∧ Permit.subjects self1 = Permit.subjects self
  ∧ Permit.areas self1 = Permit.areas self.
Proof.
  intros Hsave. apply save_Ok in Hsave as [_ Hblock].
  apply save_block_Ok in Hblock as (db_mid & Hms & _).
  pose proof (Model_save_Ok _ _ _ _ Hms) as Hsaved.
  split; [apply (saved_id _ _ _ _ Hsaved)|].
  split; [apply (saved_subjects _ _ _ _ Hsaved)
         | apply (saved_areas _ _ _ _ Hsaved)].
Qed.



(** X5.  After a successful [save] the three queries answer for the saved
    permit from its own lists: it is returned by [by_time(t)],
    [by_subject(r)], [by_area(a)] exactly when it is in the query set and
    some subject and some area overlap in a non-empty interval that,
    respectively, contains [t], belongs to a vehicle with the normal form
    of [r], belongs to the area [a]. *)
Theorem X5_queries_after_save (self self1 : Permit.t) (db db1 : DB)
    (qs : list Permit.t) :
  cache_keys_ok db →
  save self db = (Ok self1, db1) →
  (∀ timestamp,
     self1 ∈ PermitQuerySet.by_time db1 qs timestamp ↔
     self1 ∈ qs
     ∧ ∃ subject area,
         subject ∈ Permit.subjects self ∧ area ∈ Permit.areas self
         ∧ Z.max (Subject.start_time subject) (Area.start_time area)
           < Z.min (Subject.end_time subject) (Area.end_time area)
         ∧ Z.max (Subject.start_time subject) (Area.start_time area)
           <= timestamp
           <= Z.min (Subject.end_time subject) (Area.end_time area))
  ∧ (∀ registration_number,
       self1 ∈ PermitQuerySet.by_subject db1 qs registration_number ↔
       self1 ∈ qs
       ∧ ∃ subject area,
           subject ∈ Permit.subjects self ∧ area ∈ Permit.areas self
           ∧ Z.max (Subject.start_time subject) (Area.start_time area)
             < Z.min (Subject.end_time subject) (Area.end_time area)
           ∧ Parking.normalize_reg_num (Subject.registration_number subject)
             = Parking.normalize_reg_num registration_number)
  ∧ (∀ area_identifier,
       self1 ∈ PermitQuerySet.by_area db1 qs area_identifier ↔
       self1 ∈ qs
       ∧ ∃ subject area,
           subject ∈ Permit.subjects self ∧ area ∈ Permit.areas self
           ∧ Z.max (Subject.start_time subject) (Area.start_time area)
             < Z.min (Subject.end_time subject) (Area.end_time area)
           ∧ Area.area area = area_identifier).
Proof.
  intros Hkeys Hsave.
  assert (NoDup (PermitCacheItem.id <$> cache_table db1)) as Hnd.
  { pose proof (save_cache_keys self db Hkeys) as [Hnd _].
    by rewrite Hsave in Hnd. }
  destruct (save_same_lists _ _ _ _ Hsave) as (Hsome & Hsubjects & Hareas).
  rewrite <- Hsubjects, <- Hareas.
  split; [|split].
  - intros timestamp. rewrite by_time_elem_of by done.
    rewrite (saved_rows_exist
               (λ c, PermitCacheItem.start_time c <= timestamp
                     <= PermitCacheItem.end_time c) _ _ _ _ ltac:(done) Hsave).
    split.
    + intros (Hqs & _ & row & Hrow & Hlo & Hhi). split; [done|].
      apply elem_of_make_cache_items in Hrow
        as (subject & area & Hs & Ha & Hlt & ->).
      by exists subject, area.
    + intros (Hqs & subject & area & Hs & Ha & Hlt & Hin).
      split; [done|]. split; [done|].
      exists (intersection_row self1 subject area). split; [|done].
      apply elem_of_make_cache_items. by exists subject, area.
  - intros r. rewrite by_subject_elem_of by done.
    rewrite (saved_rows_exist
               (λ c, PermitCacheItem.registration_number c
                     = Parking.normalize_reg_num r) _ _ _ _ ltac:(done) Hsave).
    split.
    + intros (Hqs & _ & row & Hrow & Hreg). split; [done|].
      apply elem_of_make_cache_items in Hrow
        as (subject & area & Hs & Ha & Hlt & ->).
      by exists subject, area.
    + intros (Hqs & subject & area & Hs & Ha & Hlt & Hreg).
      split; [done|]. split; [done|].
      exists (intersection_row self1 subject area). split; [|done].
      apply elem_of_make_cache_items. by exists subject, area.
  - intros a. rewrite by_area_elem_of by done.
    rewrite (saved_rows_exist
               (λ c, PermitCacheItem.area_identifier c = a)
               _ _ _ _ ltac:(done) Hsave).
    split.
    + intros (Hqs & _ & row & Hrow & Harea). split; [done|].
      apply elem_of_make_cache_items in Hrow
        as (subject & area & Hs & Ha & Hlt & ->).
      by exists subject, area.
    + intros (Hqs & subject & area & Hs & Ha & Hlt & Harea).
      split; [done|]. split; [done|].
      exists (intersection_row self1 subject area). split; [|done].
      apply elem_of_make_cache_items. by exists subject, area.
Qed.

Lemma filter_filter_implied {A : Type} (P Q : A → Prop)
    `{!∀ x, Decision (P x)} `{!∀ x, Decision (Q x)} (l : list A) :
  (∀ x, P x → Q x) → filter P (filter Q l) = filter P l.
Proof.
  intros HPQ. induction l as [|x l IH]; [done|].
  destruct (decide (Q x)) as [HQ|HQ].
  - rewrite (filter_cons_True Q) by done.
    destruct (decide (P x)) as [HP|HP].
    + rewrite !(filter_cons_True P) by done. by rewrite IH.
    + rewrite !(filter_cons_False P) by done. apply IH.
  - rewrite (filter_cons_False Q) by done.
    rewrite (filter_cons_False P) by (intros HP; by apply HQ, HPQ). apply IH.
Qed.

(** X6.  A successful [save] of a permit leaves the other permits alone:
    a permit with another primary key keeps its row and its cache rows,
    and the series table is as before. *)
Theorem X6_save_leaves_other_permits (self self1 q : Permit.t) (db db1 : DB) :
  save self db = (Ok self1, db1) →
  Permit.id q ≠ Permit.id self1 →
  cache_rows_of q db1 = cache_rows_of q db
  ∧ (q ∈ permit_table db1 ↔ q ∈ permit_table db)
  ∧ series_table db1 = series_table db.
Proof.
  intros Hsave Hq. pose proof (save_series_table self db) as Hseries.
  rewrite Hsave in Hseries. simpl in Hseries.
  apply save_Ok in Hsave as [_ Hblock].
  apply save_block_Ok in Hblock as (db_mid & Hms & ->).
  pose proof (Model_save_Ok _ _ _ _ Hms) as Hsaved.
  split; [|split; [|done]].
  - unfold cache_rows_of. simpl. rewrite filter_app.
    rewrite filter_filter_implied by (intros c Hc; congruence).
    rewrite (filter_none _ (number_rows _ _)); [by rewrite app_nil_r|].
    eapply Forall_impl.
    + apply (number_rows_permit _ _ (Permit.id self1)), Forall_forall.
      intros row. apply make_cache_items_permit.
    + simpl. intros c Hc. congruence.
  - simpl. pose proof (saved_others _ _ _ _ Hsaved) as Hothers.
    assert (∀ table, q ∈ table ↔ q ∈ other_rows self1 table) as Hiff.
    { intros table. unfold other_rows. rewrite list_elem_of_filter. tauto. }
    by rewrite (Hiff (permit_table db_mid)), Hothers, <- Hiff.
Qed.

(** ** Rejections of [save] *)

Lemma save_rejected_by_full_clean (self : Permit.t) (db : DB) :
  ¬ (clean_fields self db = [] ∧ validate_unique self db [] = []) →
  ∃ fields, save self db = (Raise (ValidationError fields), db).
Proof.
  intros Hbad. destruct (full_clean self db) as [[[]|e] db'] eqn:Hclean.
  - exfalso. apply Hbad. by apply full_clean_Ok in Hclean as (_ & ? & ?).
  - apply full_clean_Raise in Hclean as Hshape.
    destruct Hshape as (-> & fields & ->). exists fields.
    unfold save, mbind, M_bind. by rewrite Hclean.
Qed.

(** X7.  [save] refuses, with a validation error and before it writes
    anything, a permit whose series does not exist and a permit whose
    series and external id are those of another stored permit; a permit
    without external id is never refused on account of the other
    permits. *)
Theorem X7_save_validates_series_and_external_id (self : Permit.t) (db : DB) :
  (¬ series_exists (Permit.series self) db →
   ∃ fields, save self db = (Raise (ValidationError fields), db))
  ∧ (∀ q e,
       q ∈ permit_table db → Permit.id q ≠ Permit.id self →
       Permit.series q = Permit.series self →
       Permit.external_id self = Some e → Permit.external_id q = Some e →
       ∃ fields, save self db = (Raise (ValidationError fields), db))
  ∧ (Permit.external_id self = None → clean_fields self db = [] →
     full_clean self db = (Ok tt, db)).
Proof.
  split; [|split].
  - intros Hseries. apply save_rejected_by_full_clean. intros [Hfields _].
    by apply clean_fields_nil in Hfields as [? _].
  - intros q e Hq Hid Hs He Hqe. apply save_rejected_by_full_clean.
    intros [_ Hunique]. apply validate_unique_nil in Hunique.
    assert (q ∈ other_rows self (permit_table db)) as Hother.
    { unfold other_rows. by apply list_elem_of_filter. }
    apply Hunique, Exists_exists. exists q. split.
    + by destruct (Permit.id self).
    + unfold unique_together_conflict. rewrite He. by eauto.
  - intros Hnone Hfields. apply full_clean_Ok. split; [done|].
    split; [done|]. apply validate_unique_nil. intros Hex.
    apply Exists_exists in Hex as (q & _ & _ & Hsome & _).
    rewrite Hnone in Hsome. by destruct Hsome.
Qed.

(** ** Bulk creation, and how it compares with [save] *)

Lemma Model_insert_appends (self q : Permit.t) (db db' : DB) :
  Model_insert self db = (Ok q, db') →
  permit_table db' = permit_table db ++ [q].
Proof.
  unfold Model_insert. destruct (Permit.id self) as [pk|].
  - rewrite bind_Ok. intros ([] & db1 & Hins & H).
    apply insert_permit_Ok in Hins as ->. unfold_M. by injection H as <- <-.
  - rewrite bind_Ok. intros (pk & db0 & Hseq & H).
    unfold nextval_permit in Hseq. injection Hseq as <- <-.
    apply bind_Ok in H as ([] & db1 & Hins & H).
    apply insert_permit_Ok in Hins as ->. unfold_M. by injection H as <- <-.
Qed.

Lemma QuerySet_bulk_create_appends (permits created : list Permit.t)
    (db db' : DB) :
  QuerySet_bulk_create permits db = (Ok created, db') →
  permit_table db' = permit_table db ++ created.
Proof.
  revert created db. induction permits as [|p rest IH]; intros created db; simpl.
  - unfold_M. intros [= <- <-]. by rewrite app_nil_r.
  - rewrite bind_Ok. intros (q & db1 & Hins & H).
    apply bind_Ok in H as (qs & db2 & Hrest & H). injection H as <- <-.
    apply Model_insert_appends in Hins. apply IH in Hrest.
    by rewrite Hrest, Hins, <- app_assoc.
Qed.

(** X8.  A successful [bulk_create] only appends: the permit table is the
    old one followed by the created permits, which are the given ones
    with a primary key each; the cache table is the old one followed by
    the rows of the generator for the created permits, in their order; all
    created permits pass validation. *)
Theorem X8_bulk_create_appends (permits created : list Permit.t)
    (db db' : DB) :
  PermitQuerySet.bulk_create permits db = (Ok created, db') →
  permit_table db' = permit_table db ++ created
  ∧ Forall2 (λ p q, Permit.subjects q = Permit.subjects p
                    ∧ Permit.areas q = Permit.areas p
                    ∧ is_Some (Permit.id q)) permits created
  ∧ row_tuple <$> cache_table db'
    = (row_tuple <$> cache_table db)
      ++ (row_tuple <$> (created ≫= _make_cache_items))
  ∧ Forall (λ q, clean_fields q db' = []) created.
Proof.
  unfold PermitQuerySet.bulk_create. rewrite atomic_Ok. intros Hblock.
  pose proof (bulk_create_block_Ok _ _ _ _ Hblock) as (Hseries & Hcache & _).
  assert (row_tuple <$> cache_table db'
          = (row_tuple <$> cache_table db)
            ++ (row_tuple <$> (created ≫= _make_cache_items))) as Hrows.
  { by rewrite Hcache, fmap_app, number_rows_tuple. }
  unfold PermitQuerySet.bulk_create_block in Hblock.
  apply bind_Ok in Hblock as (created' & db1 & Hins & H).
  apply bind_Ok in H as (items & db2 & Hcollect & H).
  apply bind_Ok in H as ([] & db3 & Hbulk & H). injection H as -> ->.
  pose proof (QuerySet_bulk_create_appends _ _ _ _ Hins) as Htable.
  pose proof (QuerySet_bulk_create_Ok _ _ _ _ Hins) as (Hall & _).
  apply collect_cache_items_Ok in Hcollect as (-> & -> & Hclean).
  apply cache_bulk_create_Ok in Hbulk. subst db'. simpl in *.
  split; [done|]. split; [done|]. split; [done|].
  eapply Forall_impl; [exact Hclean|]. simpl. intros q Hq.
  by apply full_clean_Ok in Hq as (_ & Hfields & _).
Qed.

Lemma Model_insert_new (self q : Permit.t) (db db' : DB) :
  Permit.id self = None →
  Model_insert self db = (Ok q, db') ↔
  q = with_id self (permit_seq db) ∧ db' = inserted self db
  ∧ (Some (permit_seq db) ∉ Permit.id <$> permit_table db)
  ∧ ¬ Exists (unique_together_conflict self) (permit_table db)
  ∧ series_exists (Permit.series self) db.
Proof.
  intros Hid. unfold Model_insert. rewrite Hid.
  unfold nextval_permit, insert_permit. unfold_M. simpl.
  case_decide as Hpk; [split; [done | by intros (_ & _ & H & _)]|].
  case_decide as Hu; [split; [done | by intros (_ & _ & _ & H & _)]|].
  case_decide as Hfk; [|split; [done | by intros (_ & _ & _ & _ & H)]].
  unfold inserted. split.
  - intros [= <- <-]. done.
  - intros (-> & -> & _). done.
Qed.

Lemma full_clean_inserted (self : Permit.t) (db : DB) :
  Permit.id self = None →
  ¬ Exists (unique_together_conflict self) (permit_table db) →
  full_clean (with_id self (permit_seq db)) (inserted self db)
    = (Ok tt, inserted self db)
  ↔ full_clean self db = (Ok tt, db).
Proof.
  intros Hid Hunique. rewrite !full_clean_Ok.
  assert (validate_unique self db [] = []) as Hu.
  { apply validate_unique_nil. by rewrite Hid. }
  assert (validate_unique (with_id self (permit_seq db)) (inserted self db) []
          = []) as Hu'.
  { apply validate_unique_nil. simpl. rewrite other_rows_insert.
    intros Hex. apply Hunique. apply Exists_exists in Hex as (r & Hr & Hc).
    apply Exists_exists. exists r. split; [|exact Hc].
    by apply list_elem_of_filter in Hr as [_ Hr]. }
  assert (clean_fields (with_id self (permit_seq db)) (inserted self db)
          = clean_fields self db) as -> by reflexivity.
  tauto.
Qed.

Lemma save_new_permit (self q : Permit.t) (db db1 : DB) :
  Permit.id self = None →
  Forall (λ c, PermitCacheItem.permit c ≠ Some (permit_seq db))
         (cache_table db) →
  save self db = (Ok q, db1) ↔
  Model_insert self db = (Ok q, inserted self db)
  ∧ full_clean self db = (Ok tt, db)
  ∧ cache_bulk_create (_make_cache_items q) (inserted self db) = (Ok tt, db1).
Proof.
  intros Hid Hfresh.
  assert (set_cache_table
            (filter (λ c, PermitCacheItem.permit c
                          ≠ Permit.id (with_id self (permit_seq db)))
                    (cache_table (inserted self db))) (inserted self db)
          = inserted self db) as Hdel.
  { simpl. by rewrite filter_all. }
  split.
  - intros Hsave. apply save_Ok in Hsave as [Hclean Hblock].
    unfold save_block in Hblock.
    apply bind_Ok in Hblock as (q' & db_mid & Hms & H).
    unfold Model_save in Hms. rewrite Hid in Hms.
    pose proof Hms as Hins.
    apply (Model_insert_new _ _ _ _ Hid) in Hms as (-> & -> & _).
    apply bind_Ok in H as ([] & db2 & Hdelete & H).
    rewrite delete_cache_items_eq, Hdel in Hdelete. injection Hdelete as <-.
    apply bind_Ok in H as ([] & db3 & Hbulk & H). injection H as <- <-.
    done.
  - intros (Hins & Hclean & Hbulk).
    pose proof Hins as Hshape.
    apply (Model_insert_new _ _ _ _ Hid) in Hshape as (-> & _).
    apply save_of_block; [done|].
    eapply save_block_succeeds.
    + unfold Model_save. rewrite Hid. exact Hins.
    + rewrite Hdel. exact Hbulk.
Qed.

Lemma bulk_create_new_permit (self q : Permit.t) (db db1 : DB) :
  Permit.id self = None →
  PermitQuerySet.bulk_create [self] db = (Ok [q], db1) ↔
  Model_insert self db = (Ok q, inserted self db)
  ∧ full_clean self db = (Ok tt, db)
  ∧ cache_bulk_create (_make_cache_items q) (inserted self db) = (Ok tt, db1).
Proof.
  intros Hid. unfold PermitQuerySet.bulk_create. rewrite atomic_Ok.
  unfold PermitQuerySet.bulk_create_block. split.
  - intros H. apply bind_Ok in H as (created & db_mid & Hins & H).
    simpl in Hins. apply bind_Ok in Hins as (q' & db2 & Hins & Hrest).
    unfold_M. simpl in Hrest. injection Hrest as <- <-.
    pose proof Hins as Hshape.
    apply (Model_insert_new _ _ _ _ Hid) in Hshape as (-> & -> & _ & Hu & _).
    apply bind_Ok in H as (items & db3 & Hcollect & H).
    apply collect_cache_items_Ok in Hcollect as (-> & -> & Hclean).
    apply Forall_cons in Hclean as [Hclean _].
    apply (full_clean_inserted _ _ Hid Hu) in Hclean.
    apply bind_Ok in H as ([] & db4 & Hbulk & H). injection H as <- <-.
    simpl in Hbulk. rewrite app_nil_r in Hbulk. done.
  - intros (Hins & Hclean & Hbulk).
    pose proof Hins as Hshape.
    apply (Model_insert_new _ _ _ _ Hid) in Hshape as (-> & _ & _ & Hu & _).
    apply bind_Ok. exists [with_id self (permit_seq db)], (inserted self db).
    split.
    + simpl. apply bind_Ok. eexists _, _. split; [exact Hins|]. done.
    + apply bind_Ok.
      exists (_make_cache_items (with_id self (permit_seq db))),
        (inserted self db).
      split.
      * simpl. apply bind_Ok. exists tt, (inserted self db). split.
        -- by apply (full_clean_inserted _ _ Hid Hu).
        -- done.
      * apply bind_Ok. by exists tt, db1.
Qed.

(** X9.  For a new permit, [bulk_create] of the one permit and [save]
    come to the same: either succeeds exactly when the other does, with
    the same permit returned and the same database state afterwards.  (No
    cache row may already refer to the key that the permit is about to
    get.) *)
Theorem X9_bulk_create_of_one_is_save (self q : Permit.t) (db db1 : DB) :
  Permit.id self = None →
  Forall (λ c, PermitCacheItem.permit c ≠ Some (permit_seq db))
         (cache_table db) →
  save self db = (Ok q, db1)
  ↔ PermitQuerySet.bulk_create [self] db = (Ok [q], db1).
Proof.
  intros Hid Hfresh.
  by rewrite save_new_permit, bulk_create_new_permit.
Qed.

(** ** The size of the generator's output *)

Lemma length_bind_le {A B : Type} (f : A → list B) (l : list A) (n : nat) :
  (∀ x, x ∈ l → (length (f x) ≤ n)%nat) →
  (length (l ≫= f) ≤ length l * n)%nat.
Proof.
  induction l as [|x l IH]; intros Hf; [done|].
  rewrite bind_cons, length_app. simpl.
  specialize (Hf x (list_elem_of_here _ _)) as Hx.
  specialize (IH (λ y Hy, Hf y (list_elem_of_further _ _ _ Hy))). lia.
Qed.

Lemma length_bind_eq {A B : Type} (f : A → list B) (l : list A) (n : nat) :
  (∀ x, x ∈ l → length (f x) = n) → length (l ≫= f) = (length l * n)%nat.
Proof.
  induction l as [|x l IH]; intros Hf; [done|].
  rewrite bind_cons, length_app. simpl.
  specialize (Hf x (list_elem_of_here _ _)) as Hx.
  specialize (IH (λ y Hy, Hf y (list_elem_of_further _ _ _ Hy))). lia.
Qed.

(** X10.  The generator yields at most one row for each pair of an area
    and a subject, and exactly one for each when every subject overlaps
    every area in a non-empty interval. *)
Theorem X10_make_cache_items_size (self : Permit.t) :
  (length (_make_cache_items self)
   ≤ length (Permit.areas self) * length (Permit.subjects self))%nat
  ∧ ((∀ subject area,
        subject ∈ Permit.subjects self → area ∈ Permit.areas self →
        Z.max (Subject.start_time subject) (Area.start_time area)
        < Z.min (Subject.end_time subject) (Area.end_time area)) →
     length (_make_cache_items self)
     = (length (Permit.areas self) * length (Permit.subjects self))%nat).
Proof.
  unfold _make_cache_items. split.
  - apply length_bind_le. intros area _.
    transitivity (length (Permit.subjects self) * 1)%nat; [|lia].
    apply length_bind_le. intros subject _. case_decide; simpl; lia.
  - intros Hall. apply length_bind_eq. intros area Harea.
    rewrite <- (Nat.mul_1_r (length (Permit.subjects self))).
    apply length_bind_eq. intros subject Hsubject.
    specialize (Hall subject area Hsubject Harea).
    case_decide; [lia | done].
Qed.

Lemma X10_witness :
  (∀ subject area,
     subject ∈ Permit.subjects two_period_permit →
     area ∈ Permit.areas two_period_permit →
     Z.max (Subject.start_time subject) (Area.start_time area)
     < Z.min (Subject.end_time subject) (Area.end_time area))
  ∧ length (_make_cache_items two_period_permit) = (1 * 2)%nat.
Proof.
  assert (∀ subject area,
     subject ∈ Permit.subjects two_period_permit →
     area ∈ Permit.areas two_period_permit →
     Z.max (Subject.start_time subject) (Area.start_time area)
     < Z.min (Subject.end_time subject) (Area.end_time area)) as Hall.
  { intros subject area Hs Ha. simpl in Hs, Ha.
    apply list_elem_of_singleton in Ha as ->.
    apply elem_of_cons in Hs as [->|Hs];
      [|apply list_elem_of_singleton in Hs as ->]; simpl; lia. }
  split; [exact Hall|].
  exact (proj2 (X10_make_cache_items_size two_period_permit) Hall).
Defined.

(** ** The monitoring export *)

(** X11.  [validate] returns the data, unchanged, exactly when both times
    are there and the start is not after the end (equal times pass); it
    reports the missing dates when either time is missing, and the wrong
    order when the start is after the end. *)
Theorem X11_export_validate (data : ExportParkings.Data) :
  (∀ d, ExportParkings.validate data = ExportParkings.Returned d ↔
        d = data
        ∧ ∃ start stop,
            ExportParkings.time_start data = Some start
            ∧ ExportParkings.time_end data = Some stop ∧ start <= stop)
  ∧ (ExportParkings.validate data
     = ExportParkings.ValidationError "You must provde start date and end date"
     ↔ ExportParkings.time_start data = None
       ∨ ExportParkings.time_end data = None)
  ∧ (ExportParkings.validate data
     = ExportParkings.ValidationError "End date must be after start date."
     ↔ ∃ start stop,
         ExportParkings.time_start data = Some start
         ∧ ExportParkings.time_end data = Some stop ∧ start > stop).
Proof.
  unfold ExportParkings.validate.
  destruct (ExportParkings.time_start data) as [start|];
    destruct (ExportParkings.time_end data) as [stop|].
  - case_decide as Hcmp; (split; [|split]).
    + intros d. split; [done|]. intros (_ & s & e & [= <-] & [= <-] & Hle). lia.
    + split; [done|]. by intros [?|?].
    + split; [|done]. intros _. by exists start, stop.
    + intros d. split.
      * intros [= <-]. split; [done|]. exists start, stop.
        repeat split; lia.
      * by intros [-> _].
    + split; [done|]. by intros [?|?].
    + split; [done|]. intros (s & e & [= <-] & [= <-] & Hgt). lia.
  - split; [|split].
    + intros d. split; [done|]. by intros (_ & s & e & _ & [=] & _).
    + split; [by right | done].
    + split; [done|]. by intros (s & e & _ & [=] & _).
  - split; [|split].
    + intros d. split; [done|]. by intros (_ & s & e & [=] & _).
    + split; [by left | done].
    + split; [done|]. by intros (s & e & [=] & _).
  - split; [|split].
    + intros d. split; [done|]. by intros (_ & s & e & [=] & _).
    + split; [by left | done].
    + split; [done|]. by intros (s & e & [=] & _).
Qed.

#[local] Instance later_start_total : Total ExportParkings.later_start.
Proof. intros a b. unfold ExportParkings.later_start. lia. Qed.

#[local] Instance later_start_trans : Transitive ExportParkings.later_start.
Proof. intros a b c. unfold ExportParkings.later_start. lia. Qed.

Lemma elem_of_parking_check_parking_ids (checks : list ExportParkings.ParkingCheck.t)
    (parkings : list ExportParkings.Parking.t) (pk : Z) :
  pk ∈ ExportParkings.parking_check_parking_ids checks parkings ↔
  pk ∈ ExportParkings.Parking.id <$> parkings
  ∧ ∃ check, check ∈ checks
             ∧ ExportParkings.ParkingCheck.found_parking check = Some pk.
Proof.
  unfold ExportParkings.parking_check_parking_ids.
  rewrite elem_of_remove_dups, list_elem_of_bind. split.
  - intros (check & Hpk & Hcheck).
    destruct (ExportParkings.ParkingCheck.found_parking check) as [pk'|] eqn:Hf;
      [|by apply elem_of_nil in Hpk].
    case_decide as Hin; [|by apply elem_of_nil in Hpk].
    apply list_elem_of_singleton in Hpk as ->. split; [done|]. by exists check.
  - intros (Hin & check & Hcheck & Hf). exists check. split; [|done].
    rewrite Hf, decide_True by done. by apply list_elem_of_singleton.
Qed.

(** The rows that [render] iterates over, before they are ordered. *)
Lemma render_parkings_Returned (filters : ExportParkings.Data)
    (table : list ExportParkings.Parking.t)
    (checks : list ExportParkings.ParkingCheck.t) (start stop : Z) :
  ExportParkings.time_start filters = Some start →
  ExportParkings.time_end filters = Some stop →
  ∃ selected,
    ExportParkings.render_parkings filters table checks
    = ExportParkings.Returned
        (merge_sort ExportParkings.later_start selected)
    ∧ ∀ park,
        park ∈ selected ↔
        park ∈ table ∧ ExportParkings.kwargs start stop filters park
        ∧ (ExportParkings.parking_check filters = Some true →
           ∃ check, check ∈ checks
                    ∧ ExportParkings.ParkingCheck.found_parking check
                      = Some (ExportParkings.Parking.id park)).
Proof.
  intros Hstart Hstop. unfold ExportParkings.render_parkings.
  rewrite Hstart, Hstop. eexists. split; [reflexivity|]. intros park.
  case_decide as Hcheck.
  - rewrite !list_elem_of_filter, elem_of_parking_check_parking_ids. split.
    + intros ((_ & Hfound) & Hk & Hpark). split; [done|]. split; [done|].
      intros _. exact Hfound.
    + intros (Hpark & Hk & Hfound). split; [|done]. split; [|by apply Hfound].
      apply list_elem_of_fmap_2. by apply list_elem_of_filter.
  - rewrite list_elem_of_filter. split.
    + intros (Hk & Hpark). split; [done|]. split; [done|]. by intros ?.
    + intros (Hpark & Hk & _). done.
Qed.

Lemma validate_Returned (data filters : ExportParkings.Data) :
  ExportParkings.validate data = ExportParkings.Returned filters →
  filters = data
  ∧ ∃ start stop,
      ExportParkings.time_start data = Some start
      ∧ ExportParkings.time_end data = Some stop ∧ start <= stop.
Proof.
  unfold ExportParkings.validate.
  destruct (ExportParkings.time_start data) as [start|]; [|done].
  destruct (ExportParkings.time_end data) as [stop|]; [|done].
  case_decide as Hcmp; [done|]. intros [= <-]. split; [done|].
  exists start, stop. repeat split; lia.
Qed.

(** X12.  With filters that [validate] has passed, [render] finds both
    times, and the parkings it iterates over are those of the table that
    start no later than the end of the window and have an end time no
    earlier than its start; a non-empty list of payment zones keeps the
    parkings with a zone of one of the codes, a non-empty list of operators
    those of one of the operators, a missing or empty list restricts
    nothing; with [parking_check] set, only parkings that some parking
    check has found are kept. *)
Theorem X12_export_selects_parkings (data filters : ExportParkings.Data)
    (table : list ExportParkings.Parking.t)
    (checks : list ExportParkings.ParkingCheck.t) :
  ExportParkings.validate data = ExportParkings.Returned filters →
  ∃ start stop rows,
    ExportParkings.time_start filters = Some start
    ∧ ExportParkings.time_end filters = Some stop
    ∧ start <= stop
    ∧ ExportParkings.render_parkings filters table checks
      = ExportParkings.Returned rows
    ∧ ∀ park,
        park ∈ rows ↔
        park ∈ table
        ∧ ExportParkings.Parking.time_start park <= stop
        ∧ (∃ e, ExportParkings.Parking.time_end park = Some e ∧ start <= e)
        ∧ match ExportParkings.payment_zones filters with
          | Some (zone :: zones) =>
              ∃ code, ExportParkings.Parking.zone_code park = Some code
                      ∧ code ∈ ExportParkings.PaymentZoneItem.code
                               <$> zone :: zones
          | _ => True
          end
        ∧ match ExportParkings.operators filters with
          | Some (operator :: operators) =>
              ExportParkings.Parking.operator_id park
              ∈ ExportParkings.OperatorItem.id <$> operator :: operators
          | _ => True
          end
        ∧ (ExportParkings.parking_check filters = Some true →
           ∃ check, check ∈ checks
                    ∧ ExportParkings.ParkingCheck.found_parking check
                      = Some (ExportParkings.Parking.id park)).
Proof.
  intros Hvalid.
  apply validate_Returned in Hvalid as (-> & start & stop & Hstart & Hstop & Hle).
  destruct (render_parkings_Returned data table checks start stop Hstart Hstop)
    as (selected & Hrender & Hselected).
  exists start, stop, (merge_sort ExportParkings.later_start selected).
  do 4 (split; [done|]). intros park.
  rewrite merge_sort_Permutation, Hselected.
  unfold ExportParkings.kwargs, ExportParkings.truthy, ExportParkings.items.
  split.
  - intros (Hpark & (Hlte & (e & He & Hgte) & Hzone & Hop) & Hfound).
    split; [done|]. split; [done|]. split; [exists e; split; [done|lia]|].
    split; [|split; [|done]].
    + destruct (ExportParkings.payment_zones data) as [[|]|]; auto.
    + destruct (ExportParkings.operators data) as [[|]|]; auto.
  - intros (Hpark & Hlte & (e & He & Hgte) & Hzone & Hop & Hfound).
    split; [done|]. split; [|done]. split; [done|].
    split; [exists e; split; [done|lia]|]. split.
    + destruct (ExportParkings.payment_zones data) as [[|]|]; by intros.
    + destruct (ExportParkings.operators data) as [[|]|]; by intros.
Qed.

Lemma X12_witness :
  ExportParkings.validate export_filters
  = ExportParkings.Returned export_filters
  ∧ ∃ start stop rows,
      ExportParkings.time_start export_filters = Some start
      ∧ ExportParkings.time_end export_filters = Some stop
      ∧ start <= stop
      ∧ ExportParkings.render_parkings export_filters export_table []
        = ExportParkings.Returned rows
      ∧ ∀ park,
          park ∈ rows ↔
          park ∈ export_table
          ∧ ExportParkings.Parking.time_start park <= stop
          ∧ (∃ e, ExportParkings.Parking.time_end park = Some e ∧ start <= e)
          ∧ match ExportParkings.payment_zones export_filters with
            | Some (zone :: zones) =>
                ∃ code, ExportParkings.Parking.zone_code park = Some code
                        ∧ code ∈ ExportParkings.PaymentZoneItem.code
                                 <$> zone :: zones
            | _ => True
            end
          ∧ match ExportParkings.operators export_filters with
            | Some (operator :: operators) =>
                ExportParkings.Parking.operator_id park
                ∈ ExportParkings.OperatorItem.id <$> operator :: operators
            | _ => True
            end
          ∧ (ExportParkings.parking_check export_filters = Some true →
             ∃ check, check ∈ []
                      ∧ ExportParkings.ParkingCheck.found_parking check
                        = Some (ExportParkings.Parking.id park)).
Proof.
  split; [reflexivity|].
  exact (X12_export_selects_parkings export_filters export_filters
           export_table [] eq_refl).
Defined.

(** The export of the three parkings: the one that has not ended is left
    out, and the later start comes first. *)
Example export_of_the_table :
  ExportParkings.Parking.id
  <$> match ExportParkings.render_parkings export_filters export_table [] with
      | ExportParkings.Returned rows => rows
      | _ => []
      end
  = [2; 1].
Proof. reflexivity. Qed.

(** X13.  The parkings that [render] iterates over come with the latest
    start first: whatever comes earlier in the list starts no earlier than
    what comes later.  They are parkings of the table, none of them taken
    more often than the table has it. *)
Theorem X13_export_orders_by_latest_start (filters : ExportParkings.Data)
    (table : list ExportParkings.Parking.t)
    (checks : list ExportParkings.ParkingCheck.t)
    (rows : list ExportParkings.Parking.t) :
  ExportParkings.render_parkings filters table checks
  = ExportParkings.Returned rows →
  (∀ before after a b,
     rows = before ++ after → a ∈ before → b ∈ after →
     ExportParkings.Parking.time_start b
     <= ExportParkings.Parking.time_start a)
  ∧ rows ⊆+ table.
Proof.
  unfold ExportParkings.render_parkings.
  destruct (ExportParkings.time_start filters) as [start|]; [|done].
  destruct (ExportParkings.time_end filters) as [stop|]; [|done].
  intros [= <-]. split.
  - intros before after a b Heq Ha Hb.
    apply (StronglySorted_app_1_elem_of ExportParkings.later_start
             before after a b); [|done..].
    rewrite <- Heq. apply StronglySorted_merge_sort; apply _.
  - rewrite merge_sort_Permutation. apply sublist_submseteq.
    case_decide.
    + etrans; apply sublist_filter.
    + apply sublist_filter.
Qed.

Lemma X13_witness :
  ExportParkings.render_parkings export_filters export_table []
  = ExportParkings.Returned
      (reverse (take 2 export_table))
  ∧ (∀ before after a b,
       reverse (take 2 export_table) = before ++ after →
       a ∈ before → b ∈ after →
       ExportParkings.Parking.time_start b
       <= ExportParkings.Parking.time_start a)
  ∧ reverse (take 2 export_table) ⊆+ export_table.
Proof.
  split; [reflexivity|].
  exact (X13_export_orders_by_latest_start export_filters export_table []
           _ eq_refl).
Defined.

(** ** Instances of the theorems on saving and creating permits *)

Lemma one_series_db_keys : cache_keys_ok one_series_db.
Proof. split; [apply NoDup_nil_2 | apply Forall_nil_2]. Defined.

Lemma second_save_succeeds :
  save two_vehicle_permit one_permit_db
  = (Ok (with_id two_vehicle_permit 2),
     snd (save two_vehicle_permit one_permit_db)).
Proof. vm_compute. reflexivity. Defined.

Lemma X5_witness :
  cache_keys_ok one_series_db
  ∧ save two_period_permit one_series_db
    = (Ok (with_id two_period_permit 1), one_permit_db)
  ∧ with_id two_period_permit 1
    ∈ PermitQuerySet.by_time one_permit_db (permit_table one_permit_db) 7.
Proof.
  split; [exact one_series_db_keys|]. split; [exact first_save_succeeds|].
  apply (proj1 (X5_queries_after_save two_period_permit
                  (with_id two_period_permit 1) one_series_db one_permit_db
                  (permit_table one_permit_db)
                  one_series_db_keys first_save_succeeds) 7).
  split; [apply list_elem_of_here|].
  exists {| Subject.start_time := 0; Subject.end_time := 10;
            Subject.registration_number := "ABC-123" |},
         {| Area.start_time := 0; Area.end_time := 30; Area.area := "A1" |}.
  split; [apply list_elem_of_here|]. split; [apply list_elem_of_here|].
  simpl. lia.
Defined.

Lemma X6_witness :
  save two_vehicle_permit one_permit_db
  = (Ok (with_id two_vehicle_permit 2),
     snd (save two_vehicle_permit one_permit_db))
  ∧ Permit.id (with_id two_period_permit 1)
    ≠ Permit.id (with_id two_vehicle_permit 2)
  ∧ cache_rows_of (with_id two_period_permit 1)
      (snd (save two_vehicle_permit one_permit_db))
    = cache_rows_of (with_id two_period_permit 1) one_permit_db.
Proof.
  assert (Permit.id (with_id two_period_permit 1)
          ≠ Permit.id (with_id two_vehicle_permit 2)) as Hid by discriminate.
  split; [exact second_save_succeeds|]. split; [exact Hid|].
  exact (proj1 (X6_save_leaves_other_permits two_vehicle_permit
                  (with_id two_vehicle_permit 2)
                  (with_id two_period_permit 1) one_permit_db _
                  second_save_succeeds Hid)).
Defined.

Lemma X7_witness :
  with_id two_period_permit 1 ∈ permit_table one_permit_db
  ∧ Permit.external_id (with_id two_period_permit 1)
    = Permit.external_id two_period_permit
  ∧ ∃ fields,
      save two_period_permit one_permit_db
      = (Raise (ValidationError fields), one_permit_db).
Proof.
  assert (with_id two_period_permit 1 ∈ permit_table one_permit_db) as Hq
    by apply list_elem_of_here.
  split; [exact Hq|]. split; [reflexivity|].
  apply (proj1 (proj2 (X7_save_validates_series_and_external_id
                         two_period_permit one_permit_db))
           (with_id two_period_permit 1) "P-1" Hq);
    [discriminate | reflexivity..].
Defined.

Lemma X8_witness :
  PermitQuerySet.bulk_create [two_vehicle_permit; blank_permit] one_permit_db
  = (Ok [with_id two_vehicle_permit 2; with_id blank_permit 3],
     snd (PermitQuerySet.bulk_create [two_vehicle_permit; blank_permit]
            one_permit_db))
  ∧ permit_table
      (snd (PermitQuerySet.bulk_create [two_vehicle_permit; blank_permit]
              one_permit_db))
    = permit_table one_permit_db
      ++ [with_id two_vehicle_permit 2; with_id blank_permit 3].
Proof.
  assert (PermitQuerySet.bulk_create [two_vehicle_permit; blank_permit]
            one_permit_db
          = (Ok [with_id two_vehicle_permit 2; with_id blank_permit 3],
             snd (PermitQuerySet.bulk_create
                    [two_vehicle_permit; blank_permit] one_permit_db)))
    as Hcreate by (vm_compute; reflexivity).
  split; [exact Hcreate|].
  exact (proj1 (X8_bulk_create_appends _ _ _ _ Hcreate)).
Defined.

Lemma X9_witness :
  Permit.id two_vehicle_permit = None
  ∧ Forall (λ c, PermitCacheItem.permit c ≠ Some (permit_seq one_series_db))
           (cache_table one_series_db)
  ∧ PermitQuerySet.bulk_create [two_vehicle_permit] one_series_db
    = (Ok [with_id two_vehicle_permit 1], two_vehicle_db).
Proof.
  assert (Forall (λ c, PermitCacheItem.permit c
                       ≠ Some (permit_seq one_series_db))
                 (cache_table one_series_db)) as Hfresh
    by apply Forall_nil_2.
  split; [reflexivity|]. split; [exact Hfresh|].
  apply (proj1 (X9_bulk_create_of_one_is_save two_vehicle_permit
                  (with_id two_vehicle_permit 1) one_series_db two_vehicle_db
                  eq_refl Hfresh)).
  vm_compute. reflexivity.
Defined.

(** ** The cache in the states that the operations lead to *)

Lemma NoDup_fmap_elem_eq {A B : Type} (f : A → B) (l : list A) (x y : A) :
  NoDup (f <$> l) → x ∈ l → y ∈ l → f x = f y → x = y.
Proof.
  induction l as [|z l IH]; intros Hnd Hx Hy Hf.
  - by apply elem_of_nil in Hx.
  - rewrite fmap_cons in Hnd. apply NoDup_cons in Hnd as [Hz Hnd].
    apply elem_of_cons in Hx as [->|Hx]; apply elem_of_cons in Hy as [->|Hy].
    + done.
    + exfalso. apply Hz. rewrite Hf. by apply list_elem_of_fmap_2.
    + exfalso. apply Hz. rewrite <- Hf. by apply list_elem_of_fmap_2.
    + by apply IH.
Qed.

Lemma insert_permit_fresh (row : Permit.t) (db db' : DB) (u : unit) :
  insert_permit row db = (Ok u, db') →
  Permit.id row ∉ Permit.id <$> permit_table db.
Proof.
  unfold insert_permit. unfold_M. case_decide as Hrow; [done|].
  by intros _.
Qed.

Lemma Model_insert_fresh (self q : Permit.t) (db db' : DB) :
  Model_insert self db = (Ok q, db') →
  Permit.id q ∉ Permit.id <$> permit_table db.
Proof.
  unfold Model_insert. destruct (Permit.id self) as [pk|].
  - rewrite bind_Ok. intros ([] & db1 & Hins & H).
    apply insert_permit_fresh in Hins. unfold_M. by injection H as <- <-.
  - rewrite bind_Ok. intros (pk & db0 & Hseq & H).
    unfold nextval_permit in Hseq. injection Hseq as <- <-.
    apply bind_Ok in H as ([] & db1 & Hins & H).
    apply insert_permit_fresh in Hins. unfold_M. by injection H as <- <-.
Qed.

Lemma Model_insert_keys (self q : Permit.t) (db db' : DB) :
  Model_insert self db = (Ok q, db') →
  NoDup (Permit.id <$> permit_table db) →
  NoDup (Permit.id <$> permit_table db').
Proof.
  intros Hins Hnd. rewrite (Model_insert_appends _ _ _ _ Hins), fmap_app.
  apply NoDup_app. split; [done|]. split; [|apply NoDup_singleton].
  intros k Hk Hk'. apply list_elem_of_singleton in Hk' as ->.
  by apply (Model_insert_fresh _ _ _ _ Hins).
Qed.

Lemma Model_save_keys (self self1 : Permit.t) (db db' : DB) :
  Model_save self db = (Ok self1, db') →
  NoDup (Permit.id <$> permit_table db) →
  NoDup (Permit.id <$> permit_table db').
Proof.
  unfold Model_save. destruct (Permit.id self) as [pk|] eqn:Hid;
    [|apply Model_insert_keys].
  unfold mbind, M_bind at 1. unfold get at 1. unfold mbind, M_bind at 1.
  case_decide as Hrow.
  - destruct (update_permit self db) as [[[]|e] db1] eqn:Hup; [|done].
    apply update_permit_Ok in Hup as ->. unfold_M. intros [= <- <-] Hnd.
    simpl. rewrite <- list_fmap_compose.
    erewrite list_fmap_ext; [exact Hnd|]. intros i q _. simpl.
    by case_decide.
  - intros H. apply (Model_insert_keys self self1).
    unfold Model_insert. rewrite Hid. exact H.
Qed.

Lemma QuerySet_bulk_create_keys (permits created : list Permit.t)
    (db db' : DB) :
  QuerySet_bulk_create permits db = (Ok created, db') →
  NoDup (Permit.id <$> permit_table db) →
  NoDup (Permit.id <$> permit_table db')
  ∧ Forall (λ p, is_Some (Permit.id p)) created.
Proof.
  revert created db. induction permits as [|p rest IH]; intros created db; simpl.
  - unfold_M. by intros [= <- <-].
  - rewrite bind_Ok. intros (q & db1 & Hins & H) Hnd.
    apply bind_Ok in H as (qs & db2 & Hrest & H). injection H as <- <-.
    destruct (IH _ _ Hrest (Model_insert_keys _ _ _ _ Hins Hnd)) as [Hnd' Hids].
    split; [done|]. constructor; [|done].
    apply (saved_id _ _ _ _ (Model_insert_Ok _ _ _ _ Hins)).
Qed.

Lemma filter_number_rows (pk : option Z) (next : Z)
    (rows : list PermitCacheItem.t) :
  row_tuple <$> filter (λ c, PermitCacheItem.permit c = pk)
                       (number_rows next rows)
  = row_tuple <$> filter (λ c, PermitCacheItem.permit c = pk) rows.
Proof.
  revert next. induction rows as [|row rest IH]; intros next; [done|]. simpl.
  destruct (decide (PermitCacheItem.permit row = pk)) as [Hpk|Hpk].
  - rewrite !filter_cons_True by done. rewrite !fmap_cons. by rewrite IH.
  - rewrite !filter_cons_False by done. apply IH.
Qed.

Lemma filter_bind_other (p : Permit.t) (created : list Permit.t) :
  Permit.id p ∉ Permit.id <$> created →
  filter (λ c, PermitCacheItem.permit c = Permit.id p)
         (created ≫= _make_cache_items) = [].
Proof.
  intros Hp. apply filter_none, Forall_bind, Forall_forall. intros q Hq.
  apply Forall_forall. intros row Hrow Hpk. apply Hp.
  rewrite <- Hpk, (make_cache_items_permit _ _ Hrow).
  by apply list_elem_of_fmap_2.
Qed.

Lemma filter_bind_owner (q : Permit.t) (created : list Permit.t) :
  NoDup (Permit.id <$> created) → q ∈ created →
  filter (λ c, PermitCacheItem.permit c = Permit.id q)
         (created ≫= _make_cache_items) = _make_cache_items q.
Proof.
  induction created as [|x rest IH]; intros Hnd Hq.
  - by apply elem_of_nil in Hq.
  - rewrite fmap_cons in Hnd. apply NoDup_cons in Hnd as [Hx Hnd].
    rewrite bind_cons, filter_app. apply elem_of_cons in Hq as [->|Hq].
    + rewrite filter_bind_other by done. rewrite app_nil_r.
      apply filter_all, Forall_forall. intros row.
      apply make_cache_items_permit.
    + rewrite IH by done. rewrite filter_none; [done|].
      apply Forall_forall. intros row Hrow Hpk. apply Hx.
      rewrite <- (make_cache_items_permit _ _ Hrow), Hpk.
      by apply list_elem_of_fmap_2.
Qed.

Lemma coherent_same_tables (db db' : DB) :
  permit_table db' = permit_table db → cache_table db' = cache_table db →
  cache_coherent db → cache_coherent db'.
Proof.
  intros Hp Hc [Hkeys Hids Howner Hrows].
  split; unfold cache_rows_of in *; by rewrite ?Hp, ?Hc.
Qed.

Lemma save_coherent (self : Permit.t) (db : DB) :
  cache_coherent db → cache_coherent (snd (save self db)).
Proof.
  intros Hok. destruct (save self db) as [[self1|e] db1] eqn:Hsave; simpl.
  2: { apply save_Raise in Hsave as (_ & Hp & Hc).
       by apply (coherent_same_tables db). }
  pose proof (save_cache_rows _ _ _ _ Hsave) as Hown.
  apply save_Ok in Hsave as [_ Hblock].
  apply save_block_Ok in Hblock as (db_mid & Hms & Hdb1).
  assert (permit_table db1 = permit_table db_mid) as Hpt by by subst db1.
  assert (cache_table db1
          = filter (λ c, PermitCacheItem.permit c ≠ Permit.id self1)
                   (cache_table db)
            ++ number_rows (cache_seq db) (_make_cache_items self1)) as Hct
    by by subst db1.
  clear Hdb1.
  pose proof (Model_save_Ok _ _ _ _ Hms) as Hsaved.
  pose proof (Model_save_keys _ _ _ _ Hms (coherent_keys _ Hok)) as Hkeys.
  pose proof (saved_row _ _ _ _ Hsaved) as Hrow.
  assert (∀ p, p ∈ permit_table db_mid → Permit.id p = Permit.id self1 →
               p = self1) as Hsame.
  { intros p Hp Hid.
    by apply (NoDup_fmap_elem_eq Permit.id (permit_table db_mid)). }
  assert (∀ p, Permit.id p ≠ Permit.id self1 →
               p ∈ permit_table db_mid ↔ p ∈ permit_table db) as Hother.
  { intros p Hid. pose proof (saved_others _ _ _ _ Hsaved) as Hothers.
    unfold other_rows in Hothers. split; intros Hp.
    - assert (p ∈ filter (λ q, Permit.id q ≠ Permit.id self1)
                         (permit_table db_mid)) as Hin
        by by apply list_elem_of_filter.
      rewrite Hothers in Hin. by apply list_elem_of_filter in Hin as [_ ?].
    - assert (p ∈ filter (λ q, Permit.id q ≠ Permit.id self1)
                         (permit_table db)) as Hin
        by by apply list_elem_of_filter.
      rewrite <- Hothers in Hin. by apply list_elem_of_filter in Hin as [_ ?]. }
  split.
  - by rewrite Hpt.
  - rewrite Hpt. apply Forall_forall. intros p Hp.
    destruct (decide (Permit.id p = Permit.id self1)) as [Hid|Hid].
    + rewrite (Hsame p Hp Hid). apply (saved_id _ _ _ _ Hsaved).
    + apply Hother in Hp; [|done].
      by apply (proj1 (Forall_forall _ _) (coherent_ids _ Hok)).
  - rewrite Hpt, Hct. apply Forall_app. split.
    + apply Forall_forall. intros c Hc.
      apply list_elem_of_filter in Hc as [Hne Hc].
      pose proof (proj1 (Forall_forall _ _) (coherent_owner _ Hok) c Hc) as Hin.
      apply list_elem_of_fmap in Hin as (p & Hp & Hin).
      rewrite Hp. apply list_elem_of_fmap_2. apply Hother; [congruence|done].
    + apply Forall_forall. intros c Hc.
      apply elem_of_number_rows in Hc as (row & k & Hc & ->). simpl.
      rewrite (make_cache_items_permit _ _ Hc).
      by apply list_elem_of_fmap_2.
  - rewrite Hpt. apply Forall_forall. intros p Hp.
    destruct (decide (Permit.id p = Permit.id self1)) as [Hid|Hid].
    + rewrite (Hsame p Hp Hid), Hown. apply number_rows_tuple.
    + unfold cache_rows_of. rewrite Hct, filter_app.
      rewrite filter_filter_implied by (intros c Hc; congruence).
      rewrite (filter_none _ (number_rows _ _)).
      * rewrite app_nil_r. apply Hother in Hp; [|done].
        by apply (proj1 (Forall_forall _ _) (coherent_rows _ Hok)).
      * apply Forall_forall. intros c Hc Hpk.
        apply elem_of_number_rows in Hc as (row & k & Hc & ->).
        simpl in Hpk. rewrite (make_cache_items_permit _ _ Hc) in Hpk.
        congruence.
Qed.

Lemma bulk_create_block_tables (permits created : list Permit.t)
    (db db' : DB) :
  PermitQuerySet.bulk_create_block permits db = (Ok created, db') →
  permit_table db' = permit_table db ++ created
  ∧ (NoDup (Permit.id <$> permit_table db) →
     NoDup (Permit.id <$> permit_table db')
     ∧ Forall (λ p, is_Some (Permit.id p)) created).
Proof.
  unfold PermitQuerySet.bulk_create_block. rewrite bind_Ok.
  intros (created' & db1 & Hins & H).
  apply bind_Ok in H as (items & db2 & Hcollect & H).
  apply bind_Ok in H as ([] & db3 & Hbulk & H). injection H as <- <-.
  apply collect_cache_items_Ok in Hcollect as (-> & -> & _).
  apply cache_bulk_create_Ok in Hbulk as ->. simpl.
  split; [by apply (QuerySet_bulk_create_appends permits)|].
  by apply (QuerySet_bulk_create_keys permits).
Qed.

Lemma bulk_create_coherent (permits : list Permit.t) (db : DB) :
  cache_coherent db →
  cache_coherent (snd (PermitQuerySet.bulk_create permits db)).
Proof.
  intros Hok.
  destruct (PermitQuerySet.bulk_create permits db) as [[created|e] db1]
    eqn:Hbulk; simpl.
  2: { apply atomic_Raise in Hbulk as (_ & Hp & Hc).
       by apply (coherent_same_tables db). }
  unfold PermitQuerySet.bulk_create in Hbulk. rewrite atomic_Ok in Hbulk.
  destruct (bulk_create_block_Ok _ _ _ _ Hbulk) as (_ & Hct & _).
  destruct (bulk_create_block_tables _ _ _ _ Hbulk) as (Hpt & Hkeys).
  destruct (Hkeys (coherent_keys _ Hok)) as [Hnd Hids].
  pose proof Hnd as Hnd'. rewrite Hpt, fmap_app in Hnd'.
  apply NoDup_app in Hnd' as (Hnd_old & Hdisj & Hnd_new).
  split.
  - done.
  - rewrite Hpt. apply Forall_app. split; [apply (coherent_ids _ Hok) | done].
  - rewrite Hpt, Hct, fmap_app. apply Forall_app. split.
    + eapply Forall_impl; [apply (coherent_owner _ Hok)|].
      intros c Hc. apply elem_of_app. by left.
    + apply Forall_forall. intros c Hc.
      apply elem_of_number_rows in Hc as (row & k & Hc & ->).
      apply list_elem_of_bind in Hc as (q & Hc & Hq). simpl.
      rewrite (make_cache_items_permit _ _ Hc). apply elem_of_app. right.
      by apply list_elem_of_fmap_2.
  - rewrite Hpt. apply Forall_app.
    split; apply Forall_forall; intros p Hp; unfold cache_rows_of;
      rewrite Hct, filter_app, fmap_app, filter_number_rows.
    + rewrite filter_bind_other.
      * rewrite app_nil_r.
        by apply (proj1 (Forall_forall _ _) (coherent_rows _ Hok)).
      * apply Hdisj. by apply list_elem_of_fmap_2.
    + rewrite filter_bind_owner by done. rewrite filter_none; [done|].
      apply Forall_forall. intros c Hc Hpk.
      pose proof (proj1 (Forall_forall _ _) (coherent_owner _ Hok) c Hc) as Hin.
      simpl in Hin. rewrite Hpk in Hin. apply (Hdisj _ Hin).
      by apply list_elem_of_fmap_2.
Qed.

Lemma series_ops_permit_table (op : Op) (db : DB) :
  match op with OpSave _ | OpBulkCreate _ => False | _ => True end →
  permit_table (run_op op db) = permit_table db.
Proof.
  destruct op as [| |act now|obj now|pk now|now ra]; try done; intros _; simpl.
  - unfold PermitSeries_create, nextval_series. unfold_M. simpl.
    by case_decide.
  - unfold activate, atomic. unfold_M. simpl.
    repeat (case_decide; simpl); done.
  - unfold prune, delete_series. unfold_M. simpl.
    repeat (case_decide; simpl); done.
Qed.

Lemma run_op_coherent (op : Op) (db : DB) :
  cache_coherent db → cache_coherent (run_op op db).
Proof.
  intros Hok. destruct op as [self|permits| | | |] eqn:Hop;
    [by apply save_coherent | by apply bulk_create_coherent | ..];
    rewrite <- Hop;
    (apply (coherent_same_tables db);
       [apply series_ops_permit_table | apply series_ops_cache_table | done]);
    by subst.
Qed.

(** Every state reached from the empty store has the cache in agreement
    with the permits. *)
Lemma run_coherent (ops : list Op) : cache_coherent (run ops empty_db).
Proof.
  assert (∀ db, cache_coherent db → cache_coherent (run ops db)) as Hrun.
  { induction ops as [|op ops IH]; intros db Hok; simpl; [done|].
    by apply IH, run_op_coherent. }
  apply Hrun. split; constructor.
Qed.

(** X14.  In every state that saves, bulk creates and the operations on
    series lead to from the empty store, the cache follows the permits: no
    two permits share a primary key, every cache row belongs to a stored
    permit, and the cache rows of a stored permit are, as (registration
    number, area, start, end) tuples and in their order, the rows that
    [_make_cache_items] gives for the permit as it is stored. *)
Theorem X14_cache_follows_the_permits (ops : list Op) :
  NoDup (Permit.id <$> permit_table (run ops empty_db))
  ∧ (∀ c, c ∈ cache_table (run ops empty_db) →
          ∃ p, p ∈ permit_table (run ops empty_db)
               ∧ PermitCacheItem.permit c = Permit.id p)
  ∧ (∀ p, p ∈ permit_table (run ops empty_db) →
          is_Some (Permit.id p)
          ∧ row_tuple <$> cache_rows_of p (run ops empty_db)
            = row_tuple <$> _make_cache_items p).
Proof.
  destruct (run_coherent ops) as [Hkeys Hids Howner Hrows].
  split; [done|]. split.
  - intros c Hc.
    pose proof (proj1 (Forall_forall _ _) Howner c Hc) as Hin.
    apply list_elem_of_fmap in Hin as (p & Hp & Hin). by exists p.
  - intros p Hp. split.
    + by apply (proj1 (Forall_forall _ _) Hids).
    + by apply (proj1 (Forall_forall _ _) Hrows).
Qed.

Lemma coherent_rows_exist (Q : PermitCacheItem.t → Prop) (db : DB)
    (p : Permit.t) :
  (∀ c c', row_tuple c = row_tuple c' → Q c → Q c') →
  cache_coherent db → p ∈ permit_table db →
  (∃ c, c ∈ cache_table db ∧ PermitCacheItem.permit c = Permit.id p ∧ Q c)
  ↔ ∃ row, row ∈ _make_cache_items p ∧ Q row.
Proof.
  intros HQ Hok Hp.
  pose proof (proj1 (Forall_forall _ _) (coherent_rows _ Hok) p Hp) as Hrows.
  simpl in Hrows. split.
  - intros (c & Hc & Hfk & Hc').
    assert (row_tuple c ∈ row_tuple <$> cache_rows_of p db) as Hin.
    { apply list_elem_of_fmap_2. by apply list_elem_of_filter. }
    rewrite Hrows in Hin. apply list_elem_of_fmap in Hin as (row & Heq & Hrow).
    exists row. split; [done|]. by apply (HQ c).
  - intros (row & Hrow & Hrow').
    assert (row_tuple row ∈ row_tuple <$> _make_cache_items p) as Hin
      by by apply list_elem_of_fmap_2.
    rewrite <- Hrows in Hin. apply list_elem_of_fmap in Hin as (c & Heq & Hc).
    apply list_elem_of_filter in Hc as [Hfk Hc].
    exists c. split; [done|]. split; [done|]. by apply (HQ row).
Qed.

(** X15.  In every such state the three queries answer for a stored permit
    from the lists it is stored with: the permit is returned by
    [by_time(t)], [by_subject(r)], [by_area(a)] exactly when it is in the
    query set and one of its subjects and one of its areas overlap in a
    non-empty interval that, respectively, contains [t], belongs to a
    vehicle with the normal form of [r], belongs to the area [a]. *)
Theorem X15_queries_follow_the_stored_permits (ops : list Op) (p : Permit.t)
    (qs : list Permit.t) :
  p ∈ permit_table (run ops empty_db) →
  (∀ timestamp,
     p ∈ PermitQuerySet.by_time (run ops empty_db) qs timestamp ↔
     p ∈ qs
     ∧ ∃ subject area,
         subject ∈ Permit.subjects p ∧ area ∈ Permit.areas p
         ∧ Z.max (Subject.start_time subject) (Area.start_time area)
           < Z.min (Subject.end_time subject) (Area.end_time area)
         ∧ Z.max (Subject.start_time subject) (Area.start_time area)
           <= timestamp
           <= Z.min (Subject.end_time subject) (Area.end_time area))
  ∧ (∀ registration_number,
       p ∈ PermitQuerySet.by_subject (run ops empty_db) qs registration_number ↔
       p ∈ qs
       ∧ ∃ subject area,
           subject ∈ Permit.subjects p ∧ area ∈ Permit.areas p
           ∧ Z.max (Subject.start_time subject) (Area.start_time area)
             < Z.min (Subject.end_time subject) (Area.end_time area)
           ∧ Parking.normalize_reg_num (Subject.registration_number subject)
             = Parking.normalize_reg_num registration_number)
  ∧ (∀ area_identifier,
       p ∈ PermitQuerySet.by_area (run ops empty_db) qs area_identifier ↔
       p ∈ qs
       ∧ ∃ subject area,
           subject ∈ Permit.subjects p ∧ area ∈ Permit.areas p
           ∧ Z.max (Subject.start_time subject) (Area.start_time area)
             < Z.min (Subject.end_time subject) (Area.end_time area)
           ∧ Area.area area = area_identifier).
Proof.
  intros Hp. pose proof (run_coherent ops) as Hok.
  destruct (run_cache_keys ops) as [Hnd _].
  pose proof (proj1 (Forall_forall _ _) (coherent_ids _ Hok) p Hp) as Hsome.
  simpl in Hsome. split; [|split].
  - intros timestamp. rewrite by_time_elem_of by done.
    rewrite (coherent_rows_exist
               (λ c, PermitCacheItem.start_time c <= timestamp
                     <= PermitCacheItem.end_time c) _ _
               ltac:(unfold row_tuple; intros c c' [= _ _ Hs He] ?; lia)
               Hok Hp).
    split.
    + intros (Hqs & _ & row & Hrow & Hlo & Hhi). split; [done|].
      apply elem_of_make_cache_items in Hrow
        as (subject & area & Hs & Ha & Hlt & ->).
      by exists subject, area.
    + intros (Hqs & subject & area & Hs & Ha & Hlt & Hin).
      split; [done|]. split; [done|].
      exists (intersection_row p subject area). split; [|done].
      apply elem_of_make_cache_items. by exists subject, area.
  - intros r. rewrite by_subject_elem_of by done.
    rewrite (coherent_rows_exist
               (λ c, PermitCacheItem.registration_number c
                     = Parking.normalize_reg_num r) _ _
               ltac:(unfold row_tuple; intros c c' [= Hr _ _ _] ?; congruence)
               Hok Hp).
    split.
    + intros (Hqs & _ & row & Hrow & Hreg). split; [done|].
      apply elem_of_make_cache_items in Hrow
        as (subject & area & Hs & Ha & Hlt & ->).
      by exists subject, area.
    + intros (Hqs & subject & area & Hs & Ha & Hlt & Hreg).
      split; [done|]. split; [done|].
      exists (intersection_row p subject area). split; [|done].
      apply elem_of_make_cache_items. by exists subject, area.
  - intros a. rewrite by_area_elem_of by done.
    rewrite (coherent_rows_exist
               (λ c, PermitCacheItem.area_identifier c = a) _ _
               ltac:(unfold row_tuple; intros c c' [= _ Ha _ _] ?; congruence)
               Hok Hp).
    split.
    + intros (Hqs & _ & row & Hrow & Harea). split; [done|].
      apply elem_of_make_cache_items in Hrow
        as (subject & area & Hs & Ha & Hlt & ->).
      by exists subject, area.
    + intros (Hqs & subject & area & Hs & Ha & Hlt & Harea).
      split; [done|]. split; [done|].
      exists (intersection_row p subject area). split; [|done].
      apply elem_of_make_cache_items. by exists subject, area.
Qed.

Lemma X15_witness :
  with_id two_period_permit 1
  ∈ permit_table
      (run [OpSeriesCreate true test_now; OpSave two_period_permit] empty_db)
  ∧ with_id two_period_permit 1
    ∈ PermitQuerySet.by_subject
        (run [OpSeriesCreate true test_now; OpSave two_period_permit] empty_db)
        [with_id two_period_permit 1] "abc-123".
Proof.
  assert (with_id two_period_permit 1
          ∈ permit_table
              (run [OpSeriesCreate true test_now; OpSave two_period_permit]
                 empty_db)) as Hp by apply list_elem_of_here.
  split; [exact Hp|].
  apply (proj1 (proj2 (X15_queries_follow_the_stored_permits
                         [OpSeriesCreate true test_now;
                          OpSave two_period_permit]
                         (with_id two_period_permit 1)
                         [with_id two_period_permit 1] Hp)) "abc-123").
  split; [apply list_elem_of_here|].
  exists {| Subject.start_time := 0; Subject.end_time := 10;
            Subject.registration_number := "ABC-123" |},
         {| Area.start_time := 0; Area.end_time := 30; Area.area := "A1" |}.
  split; [apply list_elem_of_here|]. split; [apply list_elem_of_here|].
  split; [simpl; lia | reflexivity].
Defined.

Lemma X1_witness :
  match PermitSeriesQuerySet.latest_active (series_table one_series_db) with
  | None =>
      Forall (λ s, PermitSeries.active s = false) (series_table one_series_db)
  | Some s =>
      s ∈ series_table one_series_db ∧ PermitSeries.active s = true
      ∧ Forall (λ r, PermitSeries.active r = true →
                     PermitSeries.modified_at r <= PermitSeries.modified_at s)
               (series_table one_series_db)
  end.
Proof. exact (X1_latest_active_is_latest (series_table one_series_db)). Defined.

Lemma X14_witness :
  with_id two_period_permit 1
  ∈ permit_table
      (run [OpSeriesCreate true test_now; OpSave two_period_permit] empty_db)
  ∧ row_tuple
    <$> cache_rows_of (with_id two_period_permit 1)
          (run [OpSeriesCreate true test_now; OpSave two_period_permit]
             empty_db)
    = row_tuple <$> _make_cache_items (with_id two_period_permit 1).
Proof.
  assert (with_id two_period_permit 1
          ∈ permit_table
              (run [OpSeriesCreate true test_now; OpSave two_period_permit]
                 empty_db)) as Hp by apply list_elem_of_here.
  split; [exact Hp|].
  exact (proj2 (proj2 (proj2 (X14_cache_follows_the_permits
                                [OpSeriesCreate true test_now;
                                 OpSave two_period_permit]))
                  (with_id two_period_permit 1) Hp)).
Defined.
